(** * skymakercam.proxy: a shallow embedding of the RPC proxy

    The module [skymakercam/proxy.py] layers attribute-style remote calls on
    top of the CLU AMQP client.  This development embeds its functions
    ([_ProxyMethod], [Proxy], [_stringToException], [DictObject], [invoke],
    [unpack]) as Rocq functions and proves what they do.

    Conventions of the embedding:
    - Python [str] is [string]; the strings that matter here (command names,
      option names, dictionary keys) are ASCII.
    - a Python [dict] is an association list in insertion order; its keys
      are distinct ([wf_value]).
    - raising is the [Raise] constructor of [Result]; the evaluator behind
      Python's [eval] may change the interpreter's state, so the functions
      that reach it thread a world ([M]).
    - time is explicit: an awaitable carries the instant at which it
      completes. *)

From Stdlib Require Import String Ascii List Bool ZArith QArith Lia.
Import ListNotations.
Local Open Scope string_scope.
Local Open Scope list_scope.
Set Warnings "-register-all".

(** ** Strings *)

Module Str.

(** [str.lower] on ASCII letters. *)
Definition lower_ascii (c : ascii) : ascii :=
  let n := nat_of_ascii c in
  if (65 <=? n)%nat && (n <=? 90)%nat then ascii_of_nat (n + 32) else c.

Fixpoint lower (s : string) : string :=
  match s with
  | EmptyString => EmptyString
  | String c r => String (lower_ascii c) (lower r)
  end.

(** [sep.join(parts)]. *)
Fixpoint join (sep : string) (parts : list string) : string :=
  match parts with
  | [] => ""
  | [p] => p
  | p :: rest => p ++ sep ++ join sep rest
  end.

Fixpoint is_prefix (p s : string) : bool :=
  match p, s with
  | EmptyString, _ => true
  | String a p', String b s' => Ascii.eqb a b && is_prefix p' s'
  | String _ _, EmptyString => false
  end.

(** [needle in hay] for Python strings. *)
Fixpoint occurs (needle hay : string) : bool :=
  is_prefix needle hay ||
  match hay with
  | EmptyString => false
  | String _ hay' => occurs needle hay'
  end.

Definition is_letter (c : ascii) : bool :=
  let n := nat_of_ascii c in
  ((65 <=? n)%nat && (n <=? 90)%nat) || ((97 <=? n)%nat && (n <=? 122)%nat).

Definition is_digit (c : ascii) : bool :=
  let n := nat_of_ascii c in (48 <=? n)%nat && (n <=? 57)%nat.

Fixpoint all_chars (p : ascii -> bool) (s : string) : bool :=
  match s with
  | EmptyString => true
  | String c r => p c && all_chars p r
  end.

(** Splits at the first occurrence of [sep]: [s.partition(sep)] when the
    separator is found. *)
Fixpoint split_at (sep s : string) : option (string * string) :=
  if is_prefix sep s then Some ("", substring (String.length sep) (String.length s) s)
  else match s with
       | EmptyString => None
       | String c r =>
           match split_at sep r with
           | Some (a, b) => Some (String c a, b)
           | None => None
           end
       end.

(** [s.split(" ")]. *)
Fixpoint words_from (cur : string) (s : string) : list string :=
  match s with
  | EmptyString => [cur]
  | String c r =>
      if Ascii.eqb c " "%char then cur :: words_from "" r
      else words_from (cur ++ String c "") r
  end.

Definition words (s : string) : list string := words_from "" s.

Definition mem (s : string) (l : list string) : bool :=
  existsb (String.eqb s) l.

End Str.

(** ** Data *)

(** Plain Python data: what [json.loads] gives for a reply body, and tuples,
    which [DictObject] also accepts. *)
Inductive value : Type :=
| VNone
| VBool (b : bool)
| VInt (z : Z)
| VFloat (q : Q)
| VStr (s : string)
| VList (l : list value)
| VTuple (l : list value)
| VDict (d : list (string * value)).

(** The exception classes that occur; [OtherException] and [OtherBase] stand
    for the remaining subclasses of [Exception] and for the classes that
    derive from [BaseException] only. *)
Inductive ExcClass : Type :=
| ProxyException
| ProxyPlainMessagException
| Exception
| SyntaxError
| IndentationError
| TypeError
| KeyError
| IndexError
| AttributeError
| NameError
| ZeroDivisionError
| RecursionError
| TimeoutError
| UnboundLocalError
| OtherException (name : string)
| SystemExit
| KeyboardInterrupt
| OtherBase (name : string).

(** [issubclass(c, SyntaxError)] *)
Definition is_SyntaxError (c : ExcClass) : bool :=
  match c with
  | SyntaxError | IndentationError => true
  | _ => false
  end.

(** [issubclass(c, Exception)] *)
Definition is_Exception (c : ExcClass) : bool :=
  match c with
  | SystemExit | KeyboardInterrupt | OtherBase _ => false
  | _ => true
  end.

(** Python objects as the functions of the module build and return them. *)
Inductive obj : Type :=
| OVal (v : value)                      (* plain data, passed on as it is *)
| OList (l : list obj)                  (* a list built by the module *)
| OView (attrs : list (string * obj))   (* a DictObject: its attributes *)
| OExc (cls : ExcClass) (args : list obj)  (* an exception instance *)
| OClass (cls : ExcClass)               (* an exception class *)
| OOther (name : string).               (* any other object *)

Definition None_ : obj := OVal VNone.
Definition str_ (s : string) : obj := OVal (VStr s).

(** ** Results *)

Inductive Result (A : Type) : Type :=
| Return (a : A)
| Raise (cls : ExcClass) (args : list obj).

Arguments Return {A} a.
Arguments Raise {A} cls args.

Definition rbind {A B} (r : Result A) (k : A -> Result B) : Result B :=
  match r with
  | Return a => k a
  | Raise c e => Raise c e
  end.

Definition rmap {A B} (f : A -> B) (r : Result A) : Result B :=
  rbind r (fun a => Return (f a)).

Declare Scope result_scope.
Delimit Scope result_scope with result.
Notation "x <- r ;; k" := (rbind r (fun x => k))
  (at level 61, r at next level, right associativity) : result_scope.

(** ** Dictionaries *)

Module Dict.

Section Assoc.
Context {V : Type}.

(** [d[k]], or nothing when the key is missing. *)
Fixpoint get (k : string) (d : list (string * V)) : option V :=
  match d with
  | [] => None
  | (k', v) :: rest => if String.eqb k k' then Some v else get k rest
  end.

(** [d[k] = v]: replaces the value in place, or appends a new key. *)
Fixpoint set (k : string) (v : V) (d : list (string * V)) : list (string * V) :=
  match d with
  | [] => [(k, v)]
  | (k', v') :: rest =>
      if String.eqb k k' then (k', v) :: rest else (k', v') :: set k v rest
  end.

Definition keys (d : list (string * V)) : list string := map fst d.
Definition values (d : list (string * V)) : list V := map snd d.

Fixpoint distinct (l : list string) : bool :=
  match l with
  | [] => true
  | k :: rest => negb (Str.mem k rest) && distinct rest
  end.
End Assoc.

End Dict.

(** ** DictObject *)

(** Attribute names that [object.__setattr__] does not store in the
    instance: [__class__] and [__dict__] only accept a class and a
    dictionary, [__weakref__] is read-only. *)
Definition setattr (self : list (string * obj)) (a : string) (o : obj)
  : Result (list (string * obj)) :=
  if String.eqb a "__class__" then
    Raise TypeError [str_ "__class__ must be set to a class"]
  else if String.eqb a "__dict__" then
    Raise TypeError [str_ "__dict__ must be set to a dictionary"]
  else if String.eqb a "__weakref__" then
    Raise AttributeError [str_ "attribute '__weakref__' is not writable"]
  else Return (Dict.set a o self).

(** [getattr(view, a)] for an attribute the instance stores. *)
Definition getattr (view : obj) (a : string) : option obj :=
  match view with
  | OView attrs => Dict.get a attrs
  | _ => None
  end.

(** [DictObject(d)]: [__init__] stores [d] as [_dict], then sets one
    attribute per item: a list or tuple becomes the list of its elements,
    the dictionaries among them converted; a dictionary is converted; any
    other value is stored as it is. *)
Fixpoint DictObject (d : value) {struct d} : Result obj :=
  match d with
  | VDict items =>
      let elements :=
        fix elements (b : list value) {struct b} : Result (list obj) :=
          match b with
          | [] => Return []
          | x :: b' =>
              match (match x with
                     | VDict _ => DictObject x
                     | _ => Return (OVal x)
                     end) with
              | Raise c e => Raise c e
              | Return o =>
                  match elements b' with
                  | Raise c e => Raise c e
                  | Return os => Return (o :: os)
                  end
              end
          end in
      let init :=
        fix init (l : list (string * value)) (self : list (string * obj))
            {struct l} : Result (list (string * obj)) :=
          match l with
          | [] => Return self
          | (a, b) :: rest =>
              match (match b with
                     | VList xs | VTuple xs =>
                         match elements xs with
                         | Raise c e => Raise c e
                         | Return os => Return (OList os)
                         end
                     | VDict _ => DictObject b
                     | _ => Return (OVal b)
                     end) with
              | Raise c e => Raise c e
              | Return o =>
                  match setattr self a o with
                  | Raise c e => Raise c e
                  | Return self' => init rest self'
                  end
              end
          end in
      match init items [("_dict", OVal d)] with
      | Raise c e => Raise c e
      | Return self => Return (OView self)
      end
  | _ => Raise AttributeError [str_ "object has no attribute 'items'"]
  end.

(** The pieces of [DictObject.__init__], named: the list comprehension over
    the elements of a sequence, the conversion of one item's value, and the
    loop over the items. *)
Definition convert_element (x : value) : Result obj :=
  match x with
  | VDict _ => DictObject x
  | _ => Return (OVal x)
  end.

Fixpoint elements (b : list value) : Result (list obj) :=
  match b with
  | [] => Return []
  | x :: b' =>
      match convert_element x with
      | Raise c e => Raise c e
      | Return o =>
          match elements b' with
          | Raise c e => Raise c e
          | Return os => Return (o :: os)
          end
      end
  end.

Definition convert (b : value) : Result obj :=
  match b with
  | VList xs | VTuple xs =>
      match elements xs with
      | Raise c e => Raise c e
      | Return os => Return (OList os)
      end
  | VDict _ => DictObject b
  | _ => Return (OVal b)
  end.

Fixpoint init (l : list (string * value)) (self : list (string * obj))
  : Result (list (string * obj)) :=
  match l with
  | [] => Return self
  | (a, b) :: rest =>
      match convert b with
      | Raise c e => Raise c e
      | Return o =>
          match setattr self a o with
          | Raise c e => Raise c e
          | Return self' => init rest self'
          end
      end
  end.

(** Well-formed data: the keys of every dictionary are distinct. *)
Fixpoint wf_value (v : value) : bool :=
  match v with
  | VList l | VTuple l => forallb wf_value l
  | VDict d =>
      Dict.distinct (map fst d) && forallb (fun kv => wf_value (snd kv)) d
  | _ => true
  end.

(** Data none of whose dictionaries, at any depth that [DictObject]
    reaches, has a key that [setattr] refuses. *)
Definition reserved (a : string) : bool :=
  String.eqb a "__class__" || String.eqb a "__dict__" || String.eqb a "__weakref__".

Fixpoint settable (v : value) : bool :=
  match v with
  | VList l | VTuple l => forallb settable l
  | VDict d => forallb (fun kv => negb (reserved (fst kv)) && settable (snd kv)) d
  | _ => true
  end.

Definition is_dict (v : value) : bool :=
  match v with VDict _ => true | _ => false end.

Definition is_sequence (v : value) : bool :=
  match v with VList _ | VTuple _ => true | _ => false end.

(** What the view of a mapping is: every key is a field; a mapping value is
    again a view of that mapping; a list value is a list whose mapping
    elements are views and whose other elements are the elements
    themselves; a tuple value is such a list too, the tuple itself is not
    kept; any other value is itself. *)
Inductive Represents : obj -> value -> Prop :=
| Rep_view attrs d :
    (forall k v, Dict.get k d = Some v ->
                 exists o, getattr (OView attrs) k = Some o /\ Represents o v) ->
    Represents (OView attrs) (VDict d)
| Rep_list os vs :
    RepElements os vs ->
    Represents (OList os) (VList vs)
| Rep_tuple os vs :
    RepElements os vs ->
    Represents (OList os) (VTuple vs)
| Rep_plain v :
    is_dict v = false -> is_sequence v = false ->
    Represents (OVal v) v
with RepElements : list obj -> list value -> Prop :=
| RepE_nil : RepElements [] []
| RepE_mapping o d os vs :
    Represents o (VDict d) -> RepElements os vs ->
    RepElements (o :: os) (VDict d :: vs)
| RepE_other x os vs :
    is_dict x = false -> RepElements os vs ->
    RepElements (OVal x :: os) (x :: vs).

(** The value of a mapping at a path of keys, and the field of a view at
    a path of attribute names. *)
Fixpoint source_at (v : value) (path : list string) : option value :=
  match path with
  | [] => Some v
  | k :: rest =>
      match v with
      | VDict d =>
          match Dict.get k d with
          | Some x => source_at x rest
          | None => None
          end
      | _ => None
      end
  end.

Fixpoint field_at (o : obj) (path : list string) : option obj :=
  match path with
  | [] => Some o
  | k :: rest =>
      match getattr o k with
      | Some x => field_at x rest
      | None => None
      end
  end.

(** ** Exceptions of the module *)

(** [ProxyException(argv)]: [__init__] hands [argv] to [Exception.__init__],
    so [args] is [(argv,)]. *)
Definition new_ProxyException (argv : obj) : obj :=
  OExc ProxyException [argv].

(** [ProxyPlainMessagException] called with the arguments [argv]: [__init__] hands the tuple [argv] to
    [Exception.__init__], so [args] is [(argv,)]. *)
Definition new_ProxyPlainMessagException (argv : list value) : obj :=
  OExc ProxyPlainMessagException [OVal (VTuple argv)].

Definition unexpected_message : string :=
  "Unexpected exception in parsing exception string".

(** The statement [raise x]. *)
Definition py_raise {A} (x : obj) : Result A :=
  match x with
  | OExc c args => Raise c args
  | OClass ProxyException =>
      Raise TypeError [str_ "__init__() missing 1 required positional argument: 'argv'"]
  | OClass ProxyPlainMessagException =>
      Raise ProxyPlainMessagException [OVal (VTuple [])]
  | OClass c => Raise c []
  | _ => Raise TypeError [str_ "exceptions must derive from BaseException"]
  end.

Definition class_name (c : ExcClass) : string :=
  match c with
  | ProxyException => "ProxyException"
  | ProxyPlainMessagException => "ProxyPlainMessagException"
  | Exception => "Exception"
  | SyntaxError => "SyntaxError"
  | IndentationError => "IndentationError"
  | TypeError => "TypeError"
  | KeyError => "KeyError"
  | IndexError => "IndexError"
  | AttributeError => "AttributeError"
  | NameError => "NameError"
  | ZeroDivisionError => "ZeroDivisionError"
  | RecursionError => "RecursionError"
  | TimeoutError => "TimeoutError"
  | UnboundLocalError => "UnboundLocalError"
  | OtherException n => n
  | SystemExit => "SystemExit"
  | KeyboardInterrupt => "KeyboardInterrupt"
  | OtherBase n => n
  end.

(** Whether the text [s] can be read off an object: it occurs in a string
    the object carries or in the name of an exception class in it. *)
Fixpoint value_mentions (s : string) (v : value) : bool :=
  match v with
  | VStr t => Str.occurs s t
  | VList l | VTuple l => existsb (value_mentions s) l
  | VDict d =>
      existsb (fun kv => Str.occurs s (fst kv) || value_mentions s (snd kv)) d
  | _ => false
  end.

Fixpoint mentions (s : string) (o : obj) : bool :=
  match o with
  | OVal v => value_mentions s v
  | OList l => existsb (mentions s) l
  | OView attrs =>
      existsb (fun kv => Str.occurs s (fst kv) || mentions s (snd kv)) attrs
  | OExc c args => Str.occurs s (class_name c) || existsb (mentions s) args
  | OClass c => Str.occurs s (class_name c)
  | OOther n => Str.occurs s n
  end.

(** ** Replies and awaitables *)

Record AMQPReply : Type := { body : list (string * value) }.

Record CommandStatus : Type := { did_fail : bool }.

(** A CLU command as the proxy reads it: its status and its replies. *)
Record Command : Type := { status : CommandStatus; replies : list AMQPReply }.

(** Something that can be awaited: the instant at which it completes and
    what awaiting it gives. *)
Record Awaitable (A : Type) : Type :=
  { completes_at : Q; outcome : Result A }.

Arguments completes_at {A} a.
Arguments outcome {A} a.

(** [r.replies[-1].body] *)
Definition last_body (r : Command) : Result (list (string * value)) :=
  match rev (replies r) with
  | [] => Raise IndexError [str_ "list index out of range"]
  | reply :: _ => Return (body reply)
  end.

(** [d[k]] *)
Definition getitem (d : list (string * value)) (k : string) : Result value :=
  match Dict.get k d with
  | Some v => Return v
  | None => Raise KeyError [str_ k]
  end.

(** [asyncio.gather] over the tasks: every task runs to its end; the results come
    back in the order of the tasks; when tasks raise, [gather] raises what
    the first of them to complete raised. *)
Fixpoint first_raised {A} (tasks : list (Awaitable A))
  : option (Q * (ExcClass * list obj)) :=
  match tasks with
  | [] => None
  | t :: rest =>
      match outcome t, first_raised rest with
      | Return _, later => later
      | Raise c e, None => Some (completes_at t, (c, e))
      | Raise c e, Some (at_, x) =>
          if Qle_bool (completes_at t) at_ then Some (completes_at t, (c, e))
          else Some (at_, x)
      end
  end.

Fixpoint results {A} (tasks : list (Awaitable A)) : list A :=
  match tasks with
  | [] => []
  | t :: rest =>
      match outcome t with
      | Return a => a :: results rest
      | Raise _ _ => results rest
      end
  end.

Definition gather {A} (tasks : list (Awaitable A)) : Result (list A) :=
  match first_raised tasks with
  | Some (_, (c, e)) => Raise c e
  | None => Return (results tasks)
  end.

(** [asyncio.wait_for(aw, timeout)] for a coroutine: no bound when the
    timeout is [None]; otherwise the coroutine is cancelled and
    [TimeoutError] raised unless it completes before the bound. *)
Definition wait_for {A} (aw : Awaitable A) (timeout : option Q) : Result A :=
  match timeout with
  | None => outcome aw
  | Some t =>
      if Qle_bool t 0 || Qle_bool t (completes_at aw)
      then Raise TimeoutError []
      else outcome aw
  end.

(** A list comprehension whose element expression may raise. *)
Fixpoint comprehension {A B} (f : A -> Result B) (l : list A) : Result (list B) :=
  match l with
  | [] => Return []
  | x :: rest =>
      match f x with
      | Raise c e => Raise c e
      | Return y =>
          match comprehension f rest with
          | Raise c e => Raise c e
          | Return ys => Return (y :: ys)
          end
      end
  end.

(** ** The functions that reach [eval] *)

(** A computation that may raise and may change the interpreter's world. *)
Definition M (World A : Type) : Type := World -> Result A * World.

(** [eval(s)] in the frame of [_stringToException]: what it returns or
    raises, and the world it leaves. *)
Definition Evaluator (World : Type) : Type := string -> M World obj.

Section Interpreter.
Variable World : Type.
Variable eval : Evaluator World.

Definition mret {A} (a : A) : M World A := fun w => (Return a, w).

Definition mbind {A B} (m : M World A) (k : A -> M World B) : M World B :=
  fun w =>
    match m w with
    | (Return a, w') => k a w'
    | (Raise c e, w') => (Raise c e, w')
    end.

Definition lift {A} (r : Result A) : M World A := fun w => (r, w).

Local Notation "x <~ m ;; k" := (mbind m (fun x => k))
  (at level 61, m at next level, right associativity).

(** [_stringToException(errstr)] *)
Definition _stringToException (errstr : value) : M World obj :=
  fun w =>
    match errstr with
    | VStr s =>
        match eval s w with
        | (Return o, w') => (Return o, w')
        | (Raise c e, w') =>
            if is_SyntaxError c then
              (Return (new_ProxyPlainMessagException [errstr]), w')
            else if is_Exception c then
              (Return (OExc Exception [str_ unexpected_message; OExc c e]), w')
            else (Raise c e, w')
        end
    | _ =>
        (* eval() of something that is not a string raises TypeError *)
        (Return (OExc Exception
                   [str_ unexpected_message;
                    OExc TypeError
                      [str_ "eval() arg 1 must be a string, bytes or code object"]]),
         w)
    end.

(** [_stringToException(r.replies[-1].body['error'])] *)
Definition decoded_error (r : Command) : M World obj :=
  b <~ lift (last_body r) ;;
  errstr <~ lift (getitem b "error") ;;
  _stringToException errstr.

(** The loop of the fan-out branch of [invoke]; [hasErrors] is unbound
    until the first turn and assigned anew in every turn. *)
Fixpoint invoke_loop (ret : list Command) (errors : list obj)
    (hasErrors : option bool) : M World (list obj * option bool) :=
  match ret with
  | [] => mret (errors, hasErrors)
  | r :: ret' =>
      if did_fail (status r) then
        x <~ decoded_error r ;;
        invoke_loop ret' (errors ++ [x]) (Some true)
      else
        invoke_loop ret' (errors ++ [None_]) (Some false)
  end.

(** [invoke] on the pending calls [argv], with [raw] *)
Definition invoke (argv : list (Awaitable Command)) (raw : bool) : M World obj :=
  if (1 <? length argv)%nat then
    ret <~ lift (gather argv) ;;
    st <~ invoke_loop ret [] None ;;
    match snd st with
    | None =>
        lift (Raise UnboundLocalError
                [str_ "local variable 'hasErrors' referenced before assignment"])
    | Some true => lift (py_raise (new_ProxyException (OList (fst st))))
    | Some false =>
        if raw then
          lift (rmap OList
                  (comprehension
                     (fun r => rmap (fun b => OVal (VDict b)) (last_body r)) ret))
        else
          lift (rmap OList
                  (comprehension
                     (fun r => rbind (last_body r) (fun b => DictObject (VDict b)))
                     ret))
    end
  else
    match argv with
    | [] => lift (Raise IndexError [str_ "tuple index out of range"])
    | cmd :: _ =>
        ret <~ lift (outcome cmd) ;;
        if did_fail (status ret) then
          x <~ decoded_error ret ;;
          lift (py_raise x)
        else if raw then
          lift (rmap (fun b => OVal (VDict b)) (last_body ret))
        else
          lift (rbind (last_body ret) (fun b => DictObject (VDict b)))
    end.

(** The branches of [unpack] on the body [ret] that [invoke] returned. *)
Definition unpack_body (ret : list (string * value)) (argv : list string)
  : Result obj :=
  if (length ret =? 0)%nat then Return None_
  else if (length ret =? 1)%nat then
    match Dict.values ret with
    | v :: _ => Return (OVal v)
    | [] => Raise IndexError [str_ "list index out of range"]
    end
  else if (1 <? length argv)%nat then
    rmap (fun vs => OVal (VList vs)) (comprehension (getitem ret) argv)
  else Return (OVal (VList (Dict.values ret))).

(** [unpack] on the pending call [cmd] and the requested names [argv] *)
Definition unpack (cmd : Awaitable Command) (argv : list string) : M World obj :=
  ret <~ invoke [cmd] true ;;
  match ret with
  | OVal (VDict d) => lift (unpack_body d argv)
  | _ => lift (Raise TypeError [str_ "object has no len()"])
  end.

End Interpreter.

Arguments mret {World A} a.
Arguments mbind {World A B} m k.
Arguments lift {World A} r.
Arguments _stringToException {World} eval errstr.
Arguments decoded_error {World} eval r.
Arguments invoke_loop {World} eval ret errors hasErrors.
Arguments invoke {World} eval argv raw.
Arguments unpack {World} eval cmd argv.

(** ** Proxy and _ProxyMethod *)

Section Transport.
(** The handlers a caller may pass as [callback]. *)
Variable Callback : Type.

(** One call of [AMQPClient.send_command]: the consumer, the command
    string, the positional arguments after it, and the callback. *)
Record Request : Type :=
  { req_consumer : string;
    req_command : string;
    req_args : list value;
    req_callback : option Callback }.

(** The client: sending is a coroutine that gives the command in flight,
    itself awaitable. *)
Record AMQPClient : Type :=
  { send_command : Request -> Awaitable (Awaitable Command) }.

Record _ProxyMethod : Type :=
  { _amqpc : AMQPClient; _consumer : string; _command : string }.

Record Proxy : Type :=
  { Proxy_consumer : string; Proxy_amqpc : AMQPClient }.

(** [Proxy.__getattr__] *)
Definition Proxy_getattr (self : Proxy) (command : string) : _ProxyMethod :=
  {| _amqpc := Proxy_amqpc self;
     _consumer := Proxy_consumer self;
     _command := command |}.

(** [_ProxyMethod.__getattr__], which Python calls when the ordinary
    lookup of [item] finds nothing.  [depth] is the number of frames left
    before the recursion limit.  The body evaluates the joined name, then
    [self.func]; [func] is neither a slot nor an attribute of the class,
    so that lookup calls [__getattr__] again; had it given a value, the
    constructor, whose parameters are [amqpc], [consumer] and [command],
    would have refused the keyword [func]. *)
Fixpoint _ProxyMethod_getattr (depth : nat) (self : _ProxyMethod)
    (item : string) : Result _ProxyMethod :=
  match depth with
  | O => Raise RecursionError [str_ "maximum recursion depth exceeded"]
  | S depth' =>
      let name := Str.join "." [_consumer self; item] in
      match _ProxyMethod_getattr depth' self "func" with
      | Raise c e => Raise c e
      | Return func =>
          Raise TypeError
            [str_ "__init__() got an unexpected keyword argument 'func'"]
      end
  end.

(** The keyword parameters of [_ProxyMethod.__call__]. *)
Record CallOptions : Type :=
  { blocking : bool; callback : option Callback; timeout : option Q }.

Definition default_options : CallOptions :=
  {| blocking := true; callback := None; timeout := Some (14142 # 10000) |}.

(** [chain.from_iterable(('--'+k, v) for k, v in kwargs.items())] *)
Definition options (kwargs : list (string * value)) : list value :=
  flat_map (fun kv => [VStr ("--" ++ fst kv); snd kv]) kwargs.

Definition request (self : _ProxyMethod) (args : list value)
    (opt : CallOptions) (kwargs : list (string * value)) : Request :=
  {| req_consumer := _consumer self;
     req_command := Str.lower (_command self);
     req_args := args ++ options kwargs;
     req_callback := callback opt |}.

(** What a call gives back: the command once it is done, or the command
    still in flight. *)
Inductive CallValue : Type :=
| Resolved (c : Command)
| Pending (c : Awaitable Command).

(** [_ProxyMethod.__call__]: the requests made of the client, and the
    result. *)
Definition _ProxyMethod_call (self : _ProxyMethod) (args : list value)
    (opt : CallOptions) (kwargs : list (string * value))
  : list Request * Result CallValue :=
  let req := request self args opt kwargs in
  ([req],
   match wait_for (send_command (_amqpc self) req) (timeout opt) with
   | Raise c e => Raise c e
   | Return command =>
       if blocking opt then rmap Resolved (outcome command)
       else Return (Pending command)
   end).

(** The command name of the design: the address, consumer name first,
    joined with dots and lower-cased. *)
Definition dotted_address (self : _ProxyMethod) : string :=
  Str.lower (Str.join "." [_consumer self; _command self]).

End Transport.

Arguments req_consumer {Callback}.
Arguments req_command {Callback}.
Arguments req_args {Callback}.
Arguments req_callback {Callback}.
Arguments send_command {Callback}.
Arguments _amqpc {Callback}.
Arguments _consumer {Callback}.
Arguments _command {Callback}.
Arguments Proxy_getattr {Callback}.
Arguments _ProxyMethod_getattr {Callback}.
Arguments blocking {Callback}.
Arguments callback {Callback}.
Arguments timeout {Callback}.
Arguments default_options {Callback}.
Arguments request {Callback}.
Arguments _ProxyMethod_call {Callback}.
Arguments dotted_address {Callback}.
Arguments Proxy_consumer {Callback}.
Arguments Proxy_amqpc {Callback}.

(** ** A fragment of Python's [eval]

    Three kinds of strings whose evaluation is fixed by the language, with
    the interpreter's standard output as the world:
    - [print('text')] writes the text and a newline, and returns [None];
    - [a//b] on two decimal literals is the floor division, which raises
      [ZeroDivisionError] when [b] is zero;
    - two or more alphabetic words in a row, none of them a keyword, are
      not an expression: [SyntaxError].
    Any other string is left to the evaluator given as [rest]. *)
Module Fragment.

Definition Stdout : Type := string.

Definition keywords : list string :=
  ["False"; "None"; "True"; "and"; "as"; "assert"; "async"; "await";
   "break"; "class"; "continue"; "def"; "del"; "elif"; "else"; "except";
   "finally"; "for"; "from"; "global"; "if"; "import"; "in"; "is";
   "lambda"; "nonlocal"; "not"; "or"; "pass"; "raise"; "return"; "try";
   "while"; "with"; "yield"].

Definition newline : string := String (ascii_of_nat 10) "".

Definition digit_value (c : ascii) : Z := Z.of_nat (nat_of_ascii c) - 48.

Fixpoint decimal_value (acc : Z) (s : string) : Z :=
  match s with
  | EmptyString => acc
  | String c r => decimal_value (10 * acc + digit_value c) r
  end.

(** A decimal integer literal: digits, with no leading zero unless all the
    digits are zeros. *)
Definition decimal_literal (s : string) : option Z :=
  match s with
  | EmptyString => None
  | String c _ =>
      if Str.all_chars Str.is_digit s
         && (negb (Ascii.eqb c "0"%char) || Str.all_chars (Ascii.eqb "0"%char) s)
      then Some (decimal_value 0 s)
      else None
  end.

Definition floor_division (s : string) : option (Result obj) :=
  match Str.split_at "//" s with
  | Some (a, b) =>
      match decimal_literal a, decimal_literal b with
      | Some x, Some y =>
          if (y =? 0)%Z then
            Some (Raise ZeroDivisionError
                    [str_ "integer division or modulo by zero"])
          else Some (Return (OVal (VInt (x / y))))
      | _, _ => None
      end
  | None => None
  end.

Definition plain_text (s : string) : bool :=
  Str.all_chars (fun c => Str.is_letter c || Str.is_digit c || Ascii.eqb c " "%char) s.

(** The text of [print('text')]. *)
Definition printed (s : string) : option string :=
  if Str.is_prefix "print('" s then
    let r := substring 7 (String.length s - 7) s in
    let n := (String.length r - 2)%nat in
    if (2 <=? String.length r)%nat
       && String.eqb (substring n 2 r) "')"
       && plain_text (substring 0 n r)
    then Some (substring 0 n r)
    else None
  else None.

Definition word (s : string) : bool :=
  negb (String.eqb s "") && Str.all_chars Str.is_letter s
  && negb (Str.mem s keywords).

Definition juxtaposed_words (s : string) : bool :=
  let ws := Str.words s in
  (2 <=? length ws)%nat && forallb word ws.

Definition known (s : string) (out : Stdout) : option (Result obj * Stdout) :=
  match printed s with
  | Some text => Some (Return None_, (out ++ text ++ newline)%string)
  | None =>
      match floor_division s with
      | Some r => Some (r, out)
      | None =>
          if juxtaposed_words s
          then Some (Raise SyntaxError [str_ "invalid syntax"], out)
          else None
      end
  end.

Definition eval (rest : Evaluator Stdout) : Evaluator Stdout :=
  fun s out =>
    match known s out with
    | Some r => r
    | None => rest s out
    end.

(** The fragment alone: a string outside it is refused. *)
Definition refuse : Evaluator Stdout :=
  fun s out => (Raise (OtherBase "OutsideFragment") [str_ s], out).

Definition eval_only : Evaluator Stdout := eval refuse.

End Fragment.

(** ** Statements about [invoke] *)

(** The entry of the error sequence for a reply [r]: [None] when the command
    did not fail, and otherwise what [_stringToException] gave for the
    [error] field of its last reply body. *)
Definition Entry {World} (eval : Evaluator World) (r : Command) (x : obj) : Prop :=
  if did_fail (status r) then
    exists body errstr w1 w2,
      last_body r = Return body /\
      getitem body "error" = Return errstr /\
      _stringToException eval errstr w1 = (Return x, w2)
  else x = None_.

(** The value of [hasErrors] after the loop has run over [ret]. *)
Definition flag_after (hasErrors : option bool) (ret : list Command) : option bool :=
  fold_left (fun _ r => Some (did_fail (status r))) ret hasErrors.

(** ** Sample data *)

Module Sample.

Definition finished (failed : bool) (bodies : list (list (string * value))) : Command :=
  {| status := {| did_fail := failed |};
     replies := map (fun b => {| body := b |}) bodies |}.

(** A pending call that completes at [at_] with the command [c]. *)
Definition pending (at_ : Q) (c : Command) : Awaitable Command :=
  {| completes_at := at_; outcome := Return c |}.

Definition exposure_failed : Command :=
  finished true [[("text", VStr "exposing")]; [("error", VStr "exposure failed")]].

Definition division_failed : Command :=
  finished true [[("error", VStr "1//0")]].

Definition position : Command :=
  finished false [[("x", VInt 1); ("y", VInt 2)]].

Definition nested : list (string * value) :=
  [("name", VStr "sky");
   ("camera", VDict [("gain", VFloat (3 # 2)); ("_dict", VInt 7)]);
   ("stars", VList [VInt 1; VDict [("mag", VNone)]; VList [VDict []]]);
   ("size", VTuple [VInt 640; VInt 480])].

Definition nested_view : obj :=
  OView
    [("_dict", OVal (VDict nested));
     ("name", OVal (VStr "sky"));
     ("camera",
      OView [("_dict", OVal (VInt 7)); ("gain", OVal (VFloat (3 # 2)))]);
     ("stars",
      OList [OVal (VInt 1);
             OView [("_dict", OVal (VDict [("mag", VNone)])); ("mag", OVal VNone)];
             OVal (VList [VDict []])]);
     ("size", OList [OVal (VInt 640); OVal (VInt 480)])].

End Sample.

(** What [invoke] does with the replies of a fan-out once the loop has
    left the errors and the flag in [st]. *)
Definition fanout_end (ret : list Command) (raw : bool)
    (st : list obj * option bool) : Result obj :=
  match snd st with
  | None =>
      Raise UnboundLocalError
        [str_ "local variable 'hasErrors' referenced before assignment"]
  | Some true => py_raise (new_ProxyException (OList (fst st)))
  | Some false =>
      if raw then
        rmap OList
          (comprehension
             (fun r => rmap (fun b => OVal (VDict b)) (last_body r)) ret)
      else
        rmap OList
          (comprehension
             (fun r => rbind (last_body r) (fun b => DictObject (VDict b))) ret)
  end.

(** The classes of what [DictObject] and the indexing of replies raise. *)
Definition plain_error (c : ExcClass) : Prop :=
  c = TypeError \/ c = AttributeError \/ c = IndexError.

(** A client that takes a tenth of a time unit to send and whose command
    succeeds with a position, and a handle on it as [Proxy.__getattr__]
    builds it. *)
Module SampleTransport.

Definition in_flight : Awaitable Command := Sample.pending 1 Sample.position.

Definition client : AMQPClient unit :=
  {| send_command := fun _ =>
       {| completes_at := 1 # 10; outcome := Return in_flight |} |}.

Definition handle : _ProxyMethod unit :=
  Proxy_getattr {| Proxy_consumer := "Cam"; Proxy_amqpc := client |} "Status".

End SampleTransport.

(** ** Statements about [DictObject] *)

(** What the conversion of the value [v] gives stands for [v]. *)
Definition Sound (v : value) : Prop :=
    wf_value v = true -> forall o, convert v = Return o -> Represents o v.

(** The conversion of [v] returns. *)
Definition Total (v : value) : Prop :=
    settable v = true -> exists o, convert v = Return o.

(** The conversion of [v] raises plain errors only. *)
Definition Plain (v : value) : Prop :=
    forall c e, convert v = Raise c e -> plain_error c.

(** ** Statements about construction and sending *)

(** The data on which [DictObject.__init__] meets no attribute name that
    [setattr] refuses: the keys of the mapping, of the mappings among its
    values, and of the mappings among the elements of its sequences,
    recursively.  A sequence inside a sequence is stored as it is, so its
    mappings are not looked at. *)
Fixpoint convertible (v : value) : bool :=
  match v with
  | VList xs | VTuple xs =>
      forallb (fun x => match x with VDict _ => convertible x | _ => true end) xs
  | VDict d =>
      forallb (fun kv => match kv with
                         | (a, b) => negb (reserved a) && convertible b
                         end) d
  | _ => true
  end.

Definition element_convertible (x : value) : bool :=
  match x with VDict _ => convertible x | _ => true end.

(** The conversion of [v] returns exactly when [v] is convertible. *)
Definition Exact (v : value) : Prop :=
  (exists o, convert v = Return o) <-> convertible v = true.

Definition is_upper (c : ascii) : bool :=
  let n := nat_of_ascii c in (65 <=? n)%nat && (n <=? 90)%nat.

(** An awaitable that raises. *)
Definition raises {A} (t : Awaitable A) : Prop :=
  exists c e, outcome t = Raise c e.

(** * Properties *)

(** ** Dictionaries *)

Lemma mem_false_iff (k : string) (l : list string) :
  Str.mem k l = false <-> ~ In k l.
Proof.
  unfold Str.mem. induction l as [|x l IH]; simpl.
  - split; [intros _ [] | reflexivity].
  - rewrite orb_false_iff, IH. destruct (String.eqb_spec k x) as [->|Hne].
    + split; [intros [H _]; discriminate | intros H; exfalso; apply H; now left].
    + split.
      * intros [_ H] [E|Hin]; [now symmetry in E | contradiction].
      * intros H. split; [reflexivity | intros Hin; apply H; now right].
Qed.

Lemma get_set_same {V} (k : string) (v : V) (d : list (string * V)) :
  Dict.get k (Dict.set k v d) = Some v.
Proof.
  induction d as [|[k' v'] d IH]; simpl.
  - now rewrite String.eqb_refl.
  - destruct (String.eqb_spec k k') as [->|Hne]; simpl.
    + now rewrite String.eqb_refl.
    + destruct (String.eqb_spec k k'); [contradiction | exact IH].
Qed.

Lemma get_set_other {V} (k k' : string) (v : V) (d : list (string * V)) :
  k <> k' -> Dict.get k (Dict.set k' v d) = Dict.get k d.
Proof.
  intros Hne. induction d as [|[k0 v0] d IH]; simpl.
  - destruct (String.eqb_spec k k'); [contradiction | reflexivity].
  - destruct (String.eqb_spec k' k0) as [->|Hne0]; simpl.
    + destruct (String.eqb_spec k k0); [contradiction | reflexivity].
    + destruct (String.eqb_spec k k0); [reflexivity | exact IH].
Qed.

Lemma get_In {V} (k : string) (v : V) (d : list (string * V)) :
  Dict.get k d = Some v -> In k (map fst d).
Proof.
  induction d as [|[k' v'] d IH]; simpl; [discriminate|].
  destruct (String.eqb_spec k k') as [->|Hne]; [now left | right; auto].
Qed.

(** ** Induction on nested data *)

Lemma value_ind_nested (P : value -> Prop) :
  P VNone ->
  (forall b, P (VBool b)) ->
  (forall z, P (VInt z)) ->
  (forall q, P (VFloat q)) ->
  (forall s, P (VStr s)) ->
  (forall l, Forall P l -> P (VList l)) ->
  (forall l, Forall P l -> P (VTuple l)) ->
  (forall d, Forall (fun kv => P (snd kv)) d -> P (VDict d)) ->
  forall v, P v.
Proof.
  intros HN HB HI HF HS HL HT HD.
  fix IH 1. intros [ | b | z | q | s | l | l | d ].
  - exact HN.
  - apply HB.
  - apply HI.
  - apply HF.
  - apply HS.
  - apply HL. induction l as [|x l IHl]; constructor; [apply IH | exact IHl].
  - apply HT. induction l as [|x l IHl]; constructor; [apply IH | exact IHl].
  - apply HD. induction d as [|[k x] d IHd]; constructor; [apply IH | exact IHd].
Qed.

(** ** DictObject *)

Lemma DictObject_eq (items : list (string * value)) :
  DictObject (VDict items) =
  match init items [("_dict", OVal (VDict items))] with
  | Raise c e => Raise c e
  | Return self => Return (OView self)
  end.
Proof. reflexivity. Qed.

Lemma setattr_Return self a o self' :
  setattr self a o = Return self' -> self' = Dict.set a o self.
Proof.
  unfold setattr.
  destruct (String.eqb a "__class__"); [discriminate|].
  destruct (String.eqb a "__dict__"); [discriminate|].
  destruct (String.eqb a "__weakref__"); [discriminate|].
  congruence.
Qed.

(** The loop of [__init__] leaves alone the attributes it has no item for. *)
Lemma init_keeps l : forall self final k o,
  init l self = Return final ->
  ~ In k (map fst l) ->
  Dict.get k self = Some o ->
  Dict.get k final = Some o.
Proof.
  induction l as [|[a b] l IH]; simpl; intros self final k o Hinit Hk Hget.
  - congruence.
  - destruct (convert b) as [x|]; [|discriminate].
    destruct (setattr self a x) as [self'|] eqn:Hset; [|discriminate].
    apply setattr_Return in Hset. subst self'.
    apply (IH _ _ _ _ Hinit); [tauto|].
    rewrite get_set_other; [exact Hget | intros ->; apply Hk; now left].
Qed.

Section Conversion.
Lemma elements_sound l :
  Forall Sound l -> forallb wf_value l = true ->
  forall os, elements l = Return os -> RepElements os l.
Proof.
  induction 1 as [|x l Hx _ IH]; simpl; intros Hwf os Hos.
  - injection Hos as <-. constructor.
  - apply andb_true_iff in Hwf as [Hwfx Hwfl].
    destruct (convert_element x) as [o|] eqn:Ho; [|discriminate].
    destruct (elements l) as [os'|]; [|discriminate].
    injection Hos as <-.
    destruct x; simpl in Ho;
      try (injection Ho as <-; apply RepE_other; [reflexivity | now apply IH]).
    apply RepE_mapping; [|now apply IH].
    apply Hx; [exact Hwfx | exact Ho].
Qed.

Lemma init_sound l :
  Forall (fun kv => Sound (snd kv)) l ->
  Dict.distinct (map fst l) = true ->
  forallb (fun kv => wf_value (snd kv)) l = true ->
  forall self final, init l self = Return final ->
  forall k v, Dict.get k l = Some v ->
  exists o, Dict.get k final = Some o /\ Represents o v.
Proof.
  induction 1 as [|[a b] l Hb _ IH]; simpl; intros Hd Hwf self final Hinit k v Hget.
  - discriminate.
  - apply andb_true_iff in Hd as [Ha Hd].
    apply andb_true_iff in Hwf as [Hwfb Hwf].
    apply negb_true_iff, mem_false_iff in Ha.
    destruct (convert b) as [x|] eqn:Hx; [|discriminate].
    destruct (setattr self a x) as [self'|] eqn:Hset; [|discriminate].
    apply setattr_Return in Hset. subst self'.
    destruct (String.eqb_spec k a) as [->|Hne].
    + injection Hget as <-. exists x. split.
      * apply (init_keeps _ _ _ _ _ Hinit Ha). apply get_set_same.
      * now apply Hb.
    + now apply (IH Hd Hwf _ _ Hinit).
Qed.

Lemma convert_sound : forall v, Sound v.
Proof.
  apply value_ind_nested; unfold Sound; simpl;
    try (intros; match goal with H : Return _ = Return _ |- _ =>
                   injection H as <- end; now apply Rep_plain).
  - intros l Hl Hwf o Ho.
    destruct (elements l) as [os|] eqn:Hos; [|discriminate].
    injection Ho as <-. apply Rep_list.
    now apply elements_sound.
  - intros l Hl Hwf o Ho.
    destruct (elements l) as [os|] eqn:Hos; [|discriminate].
    injection Ho as <-. apply Rep_tuple.
    now apply elements_sound.
  - intros d Hd Hwf o Ho.
    apply andb_true_iff in Hwf as [Hdist Hwf].
    change (DictObject (VDict d) = Return o) in Ho.
    rewrite DictObject_eq in Ho.
    destruct (init d _) as [self|] eqn:Hinit; [|discriminate].
    injection Ho as <-. apply Rep_view.
    intros k v Hget. now apply (init_sound d Hd Hdist Hwf _ _ Hinit).
Qed.
End Conversion.

(** Field access along a path of keys gives what stands for the value of
    the mapping at that path. *)
Lemma Represents_at_path (path : list string) :
  forall o v x,
    Represents o v ->
    source_at v path = Some x ->
    exists y, field_at o path = Some y /\ Represents y x.
Proof.
  induction path as [|k path IH]; simpl; intros o v x Hrep Hat.
  - injection Hat as <-. eauto.
  - destruct v; try discriminate.
    destruct (Dict.get k d) as [b|] eqn:Hk; [|discriminate].
    inversion Hrep as [attrs d' Hfields | | | v' Hd Hs]; subst;
      try discriminate.
    destruct (Hfields k b Hk) as (o' & Ho' & Hrep').
    rewrite Ho'. exact (IH o' b x Hrep' Hat).
Qed.

Lemma DictObject_fields_at_paths :
  forall (d : list (string * value)) (view : obj) (path : list string) (x : value),
    wf_value (VDict d) = true ->
    DictObject (VDict d) = Return view ->
    source_at (VDict d) path = Some x ->
    exists y, field_at view path = Some y /\ Represents y x.
Proof.
  intros d view path x Hwf Hview Hat.
  exact (Represents_at_path path view (VDict d) x
           (convert_sound (VDict d) Hwf view Hview) Hat).
Qed.

(** Construction succeeds on data without the attribute names that
    [setattr] refuses. *)
Lemma setattr_settable self a o :
  reserved a = false -> setattr self a o = Return (Dict.set a o self).
Proof.
  unfold reserved, setattr. intros H.
  apply orb_false_iff in H as [H H3]. apply orb_false_iff in H as [H1 H2].
  now rewrite H1, H2, H3.
Qed.

Section Totality.
Lemma elements_total l :
  Forall Total l -> forallb settable l = true ->
  exists os, elements l = Return os.
Proof.
  induction 1 as [|x l Hx _ IH]; simpl; intros Hs.
  - now exists [].
  - apply andb_true_iff in Hs as [Hsx Hsl].
    destruct (IH Hsl) as [os ->].
    assert (exists o, convert_element x = Return o) as [o ->].
    { destruct x; simpl; eauto; apply (Hx Hsx). }
    eauto.
Qed.

Lemma init_total l :
  Forall (fun kv => Total (snd kv)) l ->
  forallb (fun kv => negb (reserved (fst kv)) && settable (snd kv)) l = true ->
  forall self, exists final, init l self = Return final.
Proof.
  induction 1 as [|[a b] l Hb _ IH]; simpl; intros Hs self.
  - eauto.
  - apply andb_true_iff in Hs as [Hab Hs].
    apply andb_true_iff in Hab as [Ha Hsb].
    apply negb_true_iff in Ha.
    destruct (Hb Hsb) as [o Ho]. simpl in Ho. rewrite Ho.
    rewrite (setattr_settable _ _ _ Ha). apply (IH Hs).
Qed.

Lemma convert_total : forall v, Total v.
Proof.
  apply value_ind_nested; unfold Total; simpl; eauto.
  - intros l Hl Hs. destruct (elements_total l Hl Hs) as [os ->]. eauto.
  - intros l Hl Hs. destruct (elements_total l Hl Hs) as [os ->]. eauto.
  - intros d Hd Hs. change (exists o, DictObject (VDict d) = Return o).
    rewrite DictObject_eq.
    destruct (init_total d Hd Hs [("_dict", OVal (VDict d))]) as [final ->].
    eauto.
Qed.
End Totality.

Lemma DictObject_returns (d : list (string * value)) :
  settable (VDict d) = true -> exists view, DictObject (VDict d) = Return view.
Proof. exact (convert_total (VDict d)). Qed.

(** ** invoke *)

Section InvokeFacts.
Variable World : Type.
Variable eval : Evaluator World.

Lemma decoded_error_Return r w x w' :
  decoded_error eval r w = (Return x, w') ->
  exists body errstr,
    last_body r = Return body /\
    getitem body "error" = Return errstr /\
    _stringToException eval errstr w = (Return x, w').
Proof.
  unfold decoded_error, mbind, lift.
  destruct (last_body r) as [b|]; simpl; [|discriminate].
  destruct (getitem b "error") as [e|] eqn:He; simpl; [|discriminate].
  intros H. now exists b, e.
Qed.

Lemma decoded_error_eq r body errstr w :
  last_body r = Return body ->
  getitem body "error" = Return errstr ->
  decoded_error eval r w = _stringToException eval errstr w.
Proof.
  unfold decoded_error, mbind, lift. intros -> ->. reflexivity.
Qed.

(** The loop appends one entry per reply, in order, and leaves in
    [hasErrors] the status of the reply it saw last. *)
Lemma invoke_loop_spec ret : forall errors h w st w',
  invoke_loop eval ret errors h w = (Return st, w') ->
  exists new,
    fst st = errors ++ new /\
    Forall2 (Entry eval) ret new /\
    snd st = flag_after h ret.
Proof.
  induction ret as [|r ret IH]; simpl; intros errors h w st w' H.
  - injection H as <- <-. exists []. rewrite app_nil_r. repeat split. constructor.
  - destruct (did_fail (status r)) eqn:Hf.
    + unfold mbind in H at 1.
      destruct (decoded_error eval r w) as [[x|c e] w1] eqn:Hx; [|discriminate].
      apply IH in H as (new & Hst & Hall & Hflag).
      exists (x :: new). rewrite Hst, <- app_assoc. repeat split; [|exact Hflag].
      constructor; [|exact Hall].
      unfold Entry. rewrite Hf.
      apply decoded_error_Return in Hx as (b & e & Hb & He & Hd).
      now exists b, e, w, w1.
    + apply IH in H as (new & Hst & Hall & Hflag).
      exists (None_ :: new). rewrite Hst, <- app_assoc. repeat split; [|exact Hflag].
      constructor; [|exact Hall].
      unfold Entry. now rewrite Hf.
Qed.

Lemma gather_Return (argv : list (Awaitable Command)) rets :
  map outcome argv = map Return rets -> gather argv = Return rets.
Proof.
  intros H. unfold gather.
  assert (first_raised argv = None /\ results argv = rets) as [-> ->]; [|reflexivity].
  revert rets H. induction argv as [|t argv IH]; intros [|r rets] H;
    try discriminate; simpl; [now split|].
  injection H as Ht H. rewrite Ht.
  destruct (IH _ H) as [-> ->]. now split.
Qed.
End InvokeFacts.

Lemma setattr_Raise self a o c e :
  setattr self a o = Raise c e -> plain_error c.
Proof.
  unfold setattr, plain_error.
  destruct (String.eqb a "__class__"); [intros [= <- _]; auto|].
  destruct (String.eqb a "__dict__"); [intros [= <- _]; auto|].
  destruct (String.eqb a "__weakref__"); [intros [= <- _]; auto|].
  discriminate.
Qed.

Section Raising.
Lemma elements_plain l :
  Forall Plain l -> forall c e, elements l = Raise c e -> plain_error c.
Proof.
  induction 1 as [|x l Hx _ IH]; simpl; intros c e H; [discriminate|].
  destruct (convert_element x) as [o|c' e'] eqn:Ho.
  - destruct (elements l) as [os|c' e']; [discriminate|].
    injection H as <- <-. eapply IH; reflexivity.
  - injection H as <- <-.
    destruct x; simpl in Ho; try discriminate. eapply Hx; exact Ho.
Qed.

Lemma init_plain l :
  Forall (fun kv => Plain (snd kv)) l ->
  forall self c e, init l self = Raise c e -> plain_error c.
Proof.
  induction 1 as [|[a b] l Hb _ IH]; simpl; intros self c e H; [discriminate|].
  destruct (convert b) as [o|c' e'] eqn:Ho.
  - destruct (setattr self a o) as [self'|c' e'] eqn:Hs.
    + eapply IH; exact H.
    + injection H as <- <-. eapply setattr_Raise; exact Hs.
  - injection H as <- <-. eapply Hb; exact Ho.
Qed.

Lemma convert_plain : forall v, Plain v.
Proof.
  apply value_ind_nested; unfold Plain; simpl; try discriminate.
  - intros l Hl c e H. destruct (elements l) as [os|c' e'] eqn:Hos; [discriminate|].
    injection H as <- <-. eapply elements_plain; eassumption.
  - intros l Hl c e H. destruct (elements l) as [os|c' e'] eqn:Hos; [discriminate|].
    injection H as <- <-. eapply elements_plain; eassumption.
  - intros d Hd c e H. change (DictObject (VDict d) = Raise c e) in H.
    rewrite DictObject_eq in H.
    destruct (init d _) as [self|c' e'] eqn:Hinit; [discriminate|].
    injection H as <- <-. eapply init_plain; eassumption.
Qed.
End Raising.

Lemma last_body_Raise r c e : last_body r = Raise c e -> plain_error c.
Proof.
  unfold last_body, plain_error. destruct (rev (replies r)); [|discriminate].
  intros [= <- _]. auto.
Qed.

Lemma comprehension_Raise {A B} (f : A -> Result B) (P : ExcClass -> Prop) l :
  (forall x c e, f x = Raise c e -> P c) ->
  forall c e, comprehension f l = Raise c e -> P c.
Proof.
  intros Hf. induction l as [|x l IH]; simpl; intros c e H; [discriminate|].
  destruct (f x) as [y|c' e'] eqn:Hx.
  - destruct (comprehension f l) as [ys|c' e']; [discriminate|].
    injection H as <- <-. eapply IH; reflexivity.
  - injection H as <- <-. eapply Hf; exact Hx.
Qed.

Section InvokeFanOut.
Variable World : Type.
Variable eval : Evaluator World.

Lemma invoke_fanout_eq argv rets raw w :
  (1 < length argv)%nat ->
  map outcome argv = map Return rets ->
  invoke eval argv raw w =
  match invoke_loop eval rets [] None w with
  | (Return st, w1) => (fanout_end rets raw st, w1)
  | (Raise c e, w1) => (Raise c e, w1)
  end.
Proof.
  intros Hlen Hout. unfold invoke.
  apply Nat.ltb_lt in Hlen. rewrite Hlen.
  unfold mbind at 1. unfold lift at 1. rewrite (gather_Return _ _ Hout).
  unfold mbind.
  destruct (invoke_loop eval rets [] None w) as [[st|c e] w1]; [|reflexivity].
  unfold fanout_end, lift. destruct (snd st) as [[|]|]; try reflexivity.
  destruct raw; reflexivity.
Qed.

(** When the flag is down, nothing that [invoke] raises is the aggregate
    failure. *)
Lemma fanout_end_no_aggregate rets raw st c e :
  snd st = Some false \/ snd st = None ->
  fanout_end rets raw st = Raise c e -> c <> ProxyException.
Proof.
  unfold fanout_end. intros [-> | ->] H.
  - assert (plain_error c) as Hp.
    { destruct raw; unfold rmap, rbind in H.
      + destruct (comprehension _ rets) as [ys|c' e'] eqn:Hc; [discriminate|].
        injection H as <- <-.
        eapply (comprehension_Raise _ plain_error); [|exact Hc].
        intros x c0 e0 Hx. unfold rmap, rbind in Hx.
        destruct (last_body x) eqn:Hl; [discriminate|].
        injection Hx as <- <-. eapply last_body_Raise; exact Hl.
      + destruct (comprehension _ rets) as [ys|c' e'] eqn:Hc; [discriminate|].
        injection H as <- <-.
        eapply (comprehension_Raise _ plain_error); [|exact Hc].
        intros x c0 e0 Hx. unfold rbind in Hx.
        destruct (last_body x) as [b|] eqn:Hl.
        * eapply (convert_plain (VDict b)); exact Hx.
        * injection Hx as <- <-. eapply last_body_Raise; exact Hl. }
    destruct Hp as [-> | [-> | ->]]; discriminate.
  - injection H as <- _. discriminate.
Qed.
End InvokeFanOut.

Lemma Forall2_nth_error_l {A B} (R : A -> B -> Prop) l l' :
  Forall2 R l l' ->
  forall i x, nth_error l i = Some x ->
  exists y, nth_error l' i = Some y /\ R x y.
Proof.
  induction 1 as [|x y l l' Hxy _ IH]; intros [|i] a Hi; simpl in *; try discriminate.
  - injection Hi as <-. eauto.
  - eauto.
Qed.

Section InvokeRaises.
Variable World : Type.
Variable eval : Evaluator World.

(** The decoder lets through only what [except Exception] does not
    catch. *)
Lemma stringToException_Raise errstr w c e w' :
  _stringToException eval errstr w = (Raise c e, w') -> is_Exception c = false.
Proof.
  unfold _stringToException. destruct errstr; try discriminate.
  destruct (eval s w) as [[o|c0 e0] w0]; [discriminate|].
  destruct (is_SyntaxError c0); [discriminate|].
  destruct (is_Exception c0) eqn:Hc; [discriminate|].
  intros [= <- _ _]. exact Hc.
Qed.

Lemma decoded_error_Raise r w c e w' :
  decoded_error eval r w = (Raise c e, w') -> c <> ProxyException.
Proof.
  unfold decoded_error, mbind, lift.
  destruct (last_body r) as [b|c0 e0] eqn:Hb; simpl.
  - destruct (getitem b "error") as [v|c1 e1] eqn:Hv; simpl.
    + intros H. apply stringToException_Raise in H. now intros ->.
    + unfold getitem in Hv. destruct (Dict.get "error" b); [discriminate|].
      injection Hv as <- _. intros [= <- _ _]. discriminate.
  - intros [= <- _ _]. apply last_body_Raise in Hb.
    destruct Hb as [-> | [-> | ->]]; discriminate.
Qed.

Lemma invoke_loop_Raise ret : forall errors h w c e w',
  invoke_loop eval ret errors h w = (Raise c e, w') -> c <> ProxyException.
Proof.
  induction ret as [|r ret IH]; simpl; intros errors h w c e w' H.
  - discriminate.
  - destruct (did_fail (status r)).
    + unfold mbind in H at 1.
      destruct (decoded_error eval r w) as [[x|c0 e0] w1] eqn:Hx.
      * eapply IH; exact H.
      * injection H as <- _ _. eapply decoded_error_Raise; exact Hx.
    + eapply IH; exact H.
Qed.
End InvokeRaises.

Lemma mbind_lift {World A B} (r : Result A) (k : A -> M World B) (w : World) :
  mbind (lift r) k w =
  match r with
  | Return a => k a w
  | Raise c e => (Raise c e, w)
  end.
Proof. reflexivity. Qed.

(** C10. With no pending call, [invoke] takes the branch of the single call
    and fails on [argv[0]]: it raises [IndexError], so it neither returns a
    result nor raises a decoded failure or the aggregate failure. *)
Theorem invoke_no_calls :
  forall (World : Type) (eval : Evaluator World) (raw : bool) (w : World),
    invoke eval [] raw w =
    (Raise IndexError [str_ "tuple index out of range"], w).
Proof. reflexivity. Qed.

(** A fan-out of more than one pending call, the call at position [i]
    resolving to the reply [rets[i]] at any instant: whenever [invoke]
    raises the aggregate failure, the sequence it carries has one entry per
    call, in the order of the calls; the entry of a command that failed is
    what the decoder gave for its error, whatever that is, and the entry of
    any other command is [None]. *)
Theorem invoke_fanout_errors_positional :
  forall (World : Type) (eval : Evaluator World)
         (argv : list (Awaitable Command)) (rets : list Command)
         (raw : bool) (w w' : World) (errors : list obj),
    (1 < length argv)%nat ->
    map outcome argv = map Return rets ->
    invoke eval argv raw w = (Raise ProxyException [OList errors], w') ->
    length errors = length argv /\
    forall i r, nth_error rets i = Some r ->
                exists x, nth_error errors i = Some x /\ Entry eval r x.
Proof.
  intros World eval argv rets raw w w' errors Hlen Hout H.
  rewrite (invoke_fanout_eq _ _ _ _ _ _ Hlen Hout) in H.
  destruct (invoke_loop eval rets [] None w) as [[st|c e] w1] eqn:Hloop.
  - apply invoke_loop_spec in Hloop as (new & Hst & Hall & Hflag).
    simpl in Hst.
    destruct (snd st) as [[|]|] eqn:Hsnd.
    + unfold fanout_end in H. rewrite Hsnd in H. simpl in H.
      injection H as Herr _.
      assert (new = errors) as -> by congruence.
      split.
      * rewrite <- (Forall2_length Hall).
        rewrite <- (length_map Return rets), <- Hout. apply length_map.
      * intros i r Hi. exact (Forall2_nth_error_l _ _ _ Hall i r Hi).
    + injection H as H _. exfalso.
      eapply (fanout_end_no_aggregate rets raw st); [left; exact Hsnd | exact H | reflexivity].
    + injection H as H _. exfalso.
      eapply (fanout_end_no_aggregate rets raw st); [right; exact Hsnd | exact H | reflexivity].
  - injection H as -> _ _. exfalso.
    eapply invoke_loop_Raise; [exact Hloop | reflexivity].
Qed.

Lemma invoke_fanout_errors_positional_witness :
  let argv := [Sample.pending 5 Sample.exposure_failed;
               Sample.pending 1 Sample.position;
               Sample.pending 3 Sample.division_failed] in
  let rets := [Sample.exposure_failed; Sample.position; Sample.division_failed] in
  let errors :=
    [OExc ProxyPlainMessagException [OVal (VTuple [VStr "exposure failed"])];
     None_;
     OExc Exception
       [str_ unexpected_message;
        OExc ZeroDivisionError [str_ "integer division or modulo by zero"]]] in
  invoke Fragment.eval_only argv false "" =
  (Raise ProxyException [OList errors], "") /\
  length errors = length argv /\
  forall i r, nth_error rets i = Some r ->
              exists x, nth_error errors i = Some x /\ Entry Fragment.eval_only r x.
Proof.
  cbv zeta. split; [reflexivity|].
  apply (invoke_fanout_errors_positional _ Fragment.eval_only
           [Sample.pending 5 Sample.exposure_failed;
            Sample.pending 1 Sample.position;
            Sample.pending 3 Sample.division_failed]
           [Sample.exposure_failed; Sample.position; Sample.division_failed]
           false "" "").
  - simpl. lia.
  - reflexivity.
  - reflexivity.
Defined.

Lemma flag_after_last h rets r :
  flag_after h (rets ++ [r]) = Some (did_fail (status r)).
Proof. unfold flag_after. now rewrite fold_left_app. Qed.

(** In a fan-out the flag is that of the last reply: when the last command
    did not fail, [invoke] does not raise the aggregate failure, whatever
    the status of the commands before it. *)
Lemma invoke_fanout_last_decides :
  forall (World : Type) (eval : Evaluator World)
         (argv : list (Awaitable Command)) (rets : list Command) (r : Command)
         (raw : bool) (w w' : World) (c : ExcClass) (e : list obj),
    (1 < length argv)%nat ->
    map outcome argv = map Return (rets ++ [r]) ->
    did_fail (status r) = false ->
    invoke eval argv raw w = (Raise c e, w') ->
    c <> ProxyException.
Proof.
  intros World eval argv rets r raw w w' c e Hlen Hout Hr H.
  rewrite (invoke_fanout_eq _ _ _ _ _ _ Hlen Hout) in H.
  destruct (invoke_loop eval (rets ++ [r]) [] None w) as [[st|c0 e0] w1] eqn:Hloop.
  - apply invoke_loop_spec in Hloop as (new & _ & _ & Hflag).
    rewrite flag_after_last, Hr in Hflag.
    injection H as H _.
    eapply fanout_end_no_aggregate; [left; exact Hflag | exact H].
  - injection H as -> _ _. eapply invoke_loop_Raise; exact Hloop.
Qed.

(** C1. A fan-out of two calls in which the first command failed and the
    second did not: [invoke] raises nothing and returns the two bodies, the
    failed command's error among them. *)
Theorem invoke_fanout_failure_not_raised :
  invoke Fragment.eval_only
    [Sample.pending 1 Sample.exposure_failed; Sample.pending 2 Sample.position]
    true "" =
  (Return (OList [OVal (VDict [("error", VStr "exposure failed")]);
                  OVal (VDict [("x", VInt 1); ("y", VInt 2)])]),
   "").
Proof. reflexivity. Qed.

(** C9. A fan-out of two calls whose commands both failed, with the error
    strings [print('a')] and [print('b')]: the aggregate failure is raised,
    but the sequence it carries holds [None] at both positions, the
    positions of the failed commands, because decoding ran the strings and
    kept what [print] returned. *)
Theorem invoke_fanout_failed_entry_is_None :
  invoke Fragment.eval_only
    [Sample.pending 1 (Sample.finished true [[("error", VStr "print('a')")]]);
     Sample.pending 2 (Sample.finished true [[("error", VStr "print('b')")]])]
    true "" =
  (Raise ProxyException [OList [None_; None_]],
   ("a" ++ Fragment.newline ++ "b" ++ Fragment.newline)%string).
Proof. reflexivity. Qed.

(** ** unpack *)

Lemma unpack_body_empty (argv : list string) :
  unpack_body [] argv = Return None_.
Proof. reflexivity. Qed.

Lemma unpack_body_single (k : string) (v : value) (argv : list string) :
  unpack_body [(k, v)] argv = Return (OVal v).
Proof. reflexivity. Qed.

Lemma comprehension_getitem ret argv vs :
  map (fun k => Dict.get k ret) argv = map Some vs ->
  comprehension (getitem ret) argv = Return vs.
Proof.
  revert vs. induction argv as [|k argv IH]; intros [|v vs] H; try discriminate.
  - reflexivity.
  - simpl in *. injection H as Hk H. unfold getitem at 1. rewrite Hk, (IH _ H).
    reflexivity.
Qed.

(** Two or more requested names on a body of two or more fields: the values
    of the names, in the order of the request. *)
Lemma unpack_body_requested ret argv vs :
  (2 <= length ret)%nat ->
  (2 <= length argv)%nat ->
  map (fun k => Dict.get k ret) argv = map Some vs ->
  unpack_body ret argv = Return (OVal (VList vs)).
Proof.
  intros Hret Hargv Hvs. unfold unpack_body.
  destruct (Nat.eqb_spec (length ret) 0); [lia|].
  destruct (Nat.eqb_spec (length ret) 1); [lia|].
  destruct (Nat.ltb_spec 1 (length argv)); [|lia].
  now rewrite (comprehension_getitem _ _ _ Hvs).
Qed.

(** Fewer than two requested names on a body of two or more fields: all the
    values, in the order of the body. *)
Lemma unpack_body_all ret argv :
  (2 <= length ret)%nat ->
  (length argv <= 1)%nat ->
  unpack_body ret argv = Return (OVal (VList (Dict.values ret))).
Proof.
  intros Hret Hargv. unfold unpack_body.
  destruct (Nat.eqb_spec (length ret) 0); [lia|].
  destruct (Nat.eqb_spec (length ret) 1); [lia|].
  destruct (Nat.ltb_spec 1 (length argv)); [lia|reflexivity].
Qed.

Example unpack_body_reversed :
  unpack_body [("x", VInt 1); ("y", VInt 2)] ["y"; "x"] =
  Return (OVal (VList [VInt 2; VInt 1])).
Proof. reflexivity. Qed.

(** C5. On the body [{"x": 1, "y": 2}] with the one requested name [y],
    [unpack] returns all the values, [[1, 2]], not the value of [y]. *)
Theorem unpack_one_name_returns_all :
  unpack Fragment.eval_only (Sample.pending 1 Sample.position) ["y"] "" =
  (Return (OVal (VList [VInt 1; VInt 2])), "").
Proof. reflexivity. Qed.

(** ** _ProxyMethod *)

(** C2. Attribute access on a handle, for a name the ordinary lookup does
    not find, reaches [__getattr__], which looks up [self.func] and so calls
    itself until the recursion limit: whatever the limit, the handle and
    the name, it raises [RecursionError] and returns no handle. *)
Theorem ProxyMethod_getattr_recursion :
  forall (Callback : Type) (depth : nat) (self : _ProxyMethod Callback)
         (item : string),
    _ProxyMethod_getattr depth self item =
    Raise RecursionError [str_ "maximum recursion depth exceeded"].
Proof.
  intros Callback depth self item. revert item.
  induction depth as [|depth IH]; intros item.
  - reflexivity.
  - simpl. rewrite IH. reflexivity.
Qed.

(** ** _stringToException *)

Lemma stringToException_world :
  forall (World : Type) (eval : Evaluator World) (s : string) (w : World),
    snd (_stringToException eval (VStr s) w) = snd (eval s w).
Proof.
  intros World eval s w. unfold _stringToException.
  destruct (eval s w) as [[o|c e] w']; [reflexivity|].
  destruct (is_SyntaxError c); [reflexivity|].
  destruct (is_Exception c); reflexivity.
Qed.

Lemma stringToException_value :
  forall (World : Type) (eval : Evaluator World) (s : string) (w w' : World)
         (o : obj),
    eval s w = (Return o, w') ->
    _stringToException eval (VStr s) w = (Return o, w').
Proof.
  intros World eval s w w' o H. unfold _stringToException. now rewrite H.
Qed.

(** C3. Decoding the error string [print('pwned')] runs it: the text is
    written to the standard output, and what comes back is the [None] that
    [print] returned. *)
Theorem stringToException_runs_the_string :
  _stringToException Fragment.eval_only (VStr "print('pwned')") "" =
  (Return None_, ("pwned" ++ Fragment.newline)%string).
Proof. reflexivity. Qed.

Lemma is_prefix_refl (s : string) : Str.is_prefix s s = true.
Proof.
  induction s as [|c s IH]; simpl; [reflexivity|].
  now rewrite Ascii.eqb_refl, IH.
Qed.

Lemma occurs_refl (s : string) : Str.occurs s s = true.
Proof. destruct s; simpl; [reflexivity|]. now rewrite Ascii.eqb_refl, is_prefix_refl. Qed.

Lemma mentions_generic (s : string) (c : ExcClass) (e : list obj) :
  mentions s (OExc Exception [str_ unexpected_message; OExc c e]) =
  Str.occurs s "Exception" || Str.occurs s unexpected_message
  || mentions s (OExc c e).
Proof.
  change (mentions s (OExc Exception [str_ unexpected_message; OExc c e]))
    with (Str.occurs s "Exception"
          || (Str.occurs s unexpected_message || (mentions s (OExc c e) || false))).
  now rewrite orb_false_r, orb_assoc.
Qed.

(** C4, as amended. When evaluating the error string raises a syntax
    error, the decoder returns the plain-message failure, which carries the
    string verbatim.  When evaluating it raises any other exception that
    derives from [Exception], the decoder returns a generic failure whose
    arguments are a fixed message and that exception: the string itself is
    not stored, and it can be read off the result exactly when it can be
    read off the fixed text or off the exception that was raised. *)
Theorem stringToException_branches :
  forall (World : Type) (eval : Evaluator World) (s : string) (w w' : World)
         (c : ExcClass) (e : list obj),
    eval s w = (Raise c e, w') ->
    is_Exception c = true ->
    if is_SyntaxError c then
      _stringToException eval (VStr s) w =
      (Return (OExc ProxyPlainMessagException [OVal (VTuple [VStr s])]), w')
      /\ mentions s (OExc ProxyPlainMessagException [OVal (VTuple [VStr s])]) = true
    else
      _stringToException eval (VStr s) w =
      (Return (OExc Exception [str_ unexpected_message; OExc c e]), w')
      /\ mentions s (OExc Exception [str_ unexpected_message; OExc c e]) =
         Str.occurs s "Exception" || Str.occurs s unexpected_message
         || mentions s (OExc c e).
Proof.
  intros World eval s w w' c e H Hc. unfold _stringToException. rewrite H.
  destruct (is_SyntaxError c).
  - split; [reflexivity|]. simpl. rewrite occurs_refl. now rewrite !orb_true_r.
  - rewrite Hc. split; [reflexivity | apply mentions_generic].
Qed.

Lemma stringToException_branches_witness :
  (_stringToException Fragment.eval_only (VStr "exposure failed") "" =
   (Return (OExc ProxyPlainMessagException [OVal (VTuple [VStr "exposure failed"])]), "")
   /\ mentions "exposure failed"
        (OExc ProxyPlainMessagException [OVal (VTuple [VStr "exposure failed"])]) = true)
  /\
  (_stringToException Fragment.eval_only (VStr "1//0") "" =
   (Return (OExc Exception
              [str_ unexpected_message;
               OExc ZeroDivisionError [str_ "integer division or modulo by zero"]]),
    "")
   /\ mentions "1//0"
        (OExc Exception
           [str_ unexpected_message;
            OExc ZeroDivisionError [str_ "integer division or modulo by zero"]]) =
      Str.occurs "1//0" "Exception" || Str.occurs "1//0" unexpected_message
      || mentions "1//0"
           (OExc ZeroDivisionError [str_ "integer division or modulo by zero"])).
Proof.
  split.
  - exact (stringToException_branches _ Fragment.eval_only "exposure failed" "" ""
             SyntaxError [str_ "invalid syntax"] eq_refl eq_refl).
  - exact (stringToException_branches _ Fragment.eval_only "1//0" "" ""
             ZeroDivisionError [str_ "integer division or modulo by zero"]
             eq_refl eq_refl).
Defined.

(** C4, as stated, fails on the error string [1//0]: it is no failure of a
    known kind (evaluating it raises [ZeroDivisionError]), and what the
    decoder returns is not the plain-message failure and does not carry the
    string. *)
Lemma stringToException_loses_text :
  Fragment.known "1//0" "" =
  Some (Raise ZeroDivisionError [str_ "integer division or modulo by zero"], "")
  /\
  _stringToException Fragment.eval_only (VStr "1//0") "" =
  (Return (OExc Exception
             [str_ unexpected_message;
              OExc ZeroDivisionError [str_ "integer division or modulo by zero"]]),
   "")
  /\
  mentions "1//0"
    (OExc Exception
       [str_ unexpected_message;
        OExc ZeroDivisionError [str_ "integer division or modulo by zero"]]) = false.
Proof. repeat split. Qed.

(** ** _ProxyMethod.__call__ *)

Lemma options_length (kwargs : list (string * value)) :
  length (options kwargs) = (2 * length kwargs)%nat.
Proof.
  induction kwargs as [|[k v] kwargs IH]; simpl; [reflexivity|].
  rewrite IH. lia.
Qed.

Lemma options_nth (kwargs : list (string * value)) :
  forall i k v,
    nth_error kwargs i = Some (k, v) ->
    nth_error (options kwargs) (2 * i) = Some (VStr ("--" ++ k)) /\
    nth_error (options kwargs) (2 * i + 1) = Some v.
Proof.
  induction kwargs as [|[k0 v0] kwargs IH]; intros [|i] k v H; simpl in H;
    try discriminate.
  - injection H as <- <-. split; reflexivity.
  - replace (2 * S i)%nat with (S (S (2 * i))) by lia.
    replace (S (S (2 * i)) + 1)%nat with (S (S (2 * i + 1))) by lia.
    simpl. exact (IH i k v H).
Qed.

Lemma wait_for_late {A} (aw : Awaitable A) (t : Q) :
  (t <= 0 \/ t <= completes_at aw)%Q ->
  wait_for aw (Some t) = Raise TimeoutError [].
Proof.
  intros H. unfold wait_for.
  assert (Qle_bool t 0 || Qle_bool t (completes_at aw) = true) as ->; [|reflexivity].
  apply orb_true_iff. destruct H as [H|H]; [left|right]; now apply Qle_bool_iff.
Qed.

Lemma wait_for_in_time {A} (aw : Awaitable A) (t : Q) :
  (0 < t)%Q -> (completes_at aw < t)%Q ->
  wait_for aw (Some t) = outcome aw.
Proof.
  intros H0 H1. unfold wait_for.
  assert (Qle_bool t 0 || Qle_bool t (completes_at aw) = false) as ->; [|reflexivity].
  apply orb_false_iff. split.
  - destruct (Qle_bool t 0) eqn:E; [|reflexivity].
    apply Qle_bool_iff in E. exfalso. exact (Qlt_not_le _ _ H0 E).
  - destruct (Qle_bool t (completes_at aw)) eqn:E; [|reflexivity].
    apply Qle_bool_iff in E. exfalso. exact (Qlt_not_le _ _ H1 E).
Qed.

(** C8, as amended. A call on a handle makes one request of the client: to
    the handle's consumer, unchanged, with the handle's command name
    lower-cased as the command string (the consumer name is not joined into
    it); the positional arguments are followed by one [--key], [value] pair
    per named argument, in their order; the callback is passed on.  The
    send alone is awaited under the timeout, 1.4142 by default: the call
    raises [TimeoutError] when the send is not over before the bound.
    Otherwise, when sending gives a command, the call awaits it and returns
    it resolved if [blocking], and returns it still pending if not. *)
Theorem ProxyMethod_call_spec :
  forall (Callback : Type) (self : _ProxyMethod Callback) (args : list value)
         (opt : CallOptions Callback) (kwargs : list (string * value)),
    let req := {| req_consumer := _consumer self;
                  req_command := Str.lower (_command self);
                  req_args := args ++ options kwargs;
                  req_callback := callback opt |} in
    let sending := send_command (_amqpc self) req in
    let result := snd (_ProxyMethod_call self args opt kwargs) in
    fst (_ProxyMethod_call self args opt kwargs) = [req] /\
    length (options kwargs) = (2 * length kwargs)%nat /\
    (forall i k v,
        nth_error kwargs i = Some (k, v) ->
        nth_error (options kwargs) (2 * i) = Some (VStr ("--" ++ k)) /\
        nth_error (options kwargs) (2 * i + 1) = Some v) /\
    (forall t,
        timeout opt = Some t ->
        (t <= 0 \/ t <= completes_at sending)%Q ->
        result = Raise TimeoutError []) /\
    (forall command,
        timeout opt = None \/
        (exists t, timeout opt = Some t /\ (0 < t)%Q /\ (completes_at sending < t)%Q) ->
        outcome sending = Return command ->
        result = if blocking opt then rmap Resolved (outcome command)
                 else Return (Pending command)) /\
    timeout (@default_options Callback) = Some (14142 # 10000) /\
    blocking (@default_options Callback) = true.
Proof.
  intros Callback self args opt kwargs req sending result.
  split; [reflexivity|].
  split; [apply options_length|].
  split; [apply options_nth|].
  split; [|split; [|split; reflexivity]].
  - intros t Ht Hlate.
    pose proof (wait_for_late sending t Hlate) as Hw.
    unfold result, sending, req, _ProxyMethod_call, request in *. cbn [snd].
    now rewrite Ht, Hw.
  - intros command Hin Hsent.
    assert (wait_for sending (timeout opt) = outcome sending) as Hw.
    { destruct Hin as [-> | (t & -> & H0 & H1)];
        [reflexivity | now apply wait_for_in_time]. }
    unfold result, sending, req, _ProxyMethod_call, request in *. cbn [snd].
    now rewrite Hw, Hsent.
Qed.

Lemma ProxyMethod_call_spec_witness :
  _ProxyMethod_call SampleTransport.handle [VStr "fast"] default_options
    [("gain", VInt 2)] =
  ([{| req_consumer := "Cam"; req_command := "status";
       req_args := [VStr "fast"; VStr "--gain"; VInt 2];
       req_callback := None |}],
   Return (Resolved Sample.position))
  /\
  snd (_ProxyMethod_call SampleTransport.handle []
         {| blocking := false; callback := None; timeout := Some (1 # 20) |} []) =
  Raise TimeoutError [].
Proof.
  split.
  - pose proof (ProxyMethod_call_spec unit SampleTransport.handle [VStr "fast"]
                  default_options [("gain", VInt 2)]) as (Hreq & _ & _ & _ & Hres & _).
    specialize (Hres SampleTransport.in_flight).
    apply injective_projections; [exact Hreq|].
    apply Hres; [right; exists (14142 # 10000); repeat split | reflexivity].
  - pose proof (ProxyMethod_call_spec unit SampleTransport.handle []
                  {| blocking := false; callback := None; timeout := Some (1 # 20) |} [])
      as (_ & _ & _ & Hlate & _).
    apply (Hlate (1 # 20)); [reflexivity|].
    right. simpl. unfold Qle. simpl. lia.
Defined.

(** C8, as stated, fails on the handle that [Proxy("Cam", client).Status]
    gives: the command string sent is [status], not the address [Cam],
    [Status] joined with a dot and lower-cased. *)
Lemma ProxyMethod_call_sends_no_dotted_address :
  map req_command
    (fst (_ProxyMethod_call SampleTransport.handle [] default_options [])) =
  ["status"]
  /\ map req_consumer
       (fst (_ProxyMethod_call SampleTransport.handle [] default_options [])) =
     ["Cam"]
  /\ dotted_address SampleTransport.handle = "cam.status"
  /\ String.eqb "status" (dotted_address SampleTransport.handle) = false.
Proof. repeat split. Qed.

(** * Further properties *)

(** ** DictObject: when construction returns *)

Lemma setattr_returns_iff self a o :
  (exists self', setattr self a o = Return self') <-> reserved a = false.
Proof.
  split.
  - intros [self' H]. unfold setattr in H. unfold reserved.
    destruct (String.eqb a "__class__"); [discriminate|].
    destruct (String.eqb a "__dict__"); [discriminate|].
    destruct (String.eqb a "__weakref__"); [discriminate|reflexivity].
  - intros H. rewrite (setattr_settable _ _ _ H). eauto.
Qed.

Lemma elements_returns_iff l :
  Forall Exact l ->
  (exists os, elements l = Return os) <-> forallb element_convertible l = true.
Proof.
  induction 1 as [|x l Hx _ IH]; simpl.
  - split; eauto.
  - assert ((exists o, convert_element x = Return o) <-> element_convertible x = true)
      as Hel.
    { destruct x; try (simpl; split; eauto; fail). exact Hx. }
    rewrite andb_true_iff, <- Hel, <- IH. split.
    + intros [os H]. destruct (convert_element x) as [o|]; [|discriminate].
      destruct (elements l) as [os'|]; [|discriminate]. eauto.
    + intros [[o ->] [os ->]]. eauto.
Qed.

Lemma init_returns_iff l :
  Forall (fun kv => Exact (snd kv)) l ->
  forall self,
    (exists final, init l self = Return final) <->
    forallb (fun kv => match kv with
                       | (a, b) => negb (reserved a) && convertible b
                       end) l = true.
Proof.
  induction 1 as [|[a b] l Hb _ IH]; simpl; intros self.
  - split; eauto.
  - unfold Exact in Hb. simpl in Hb.
    rewrite !andb_true_iff, negb_true_iff, <- Hb. split.
    + intros [final H]. destruct (convert b) as [o|]; [|discriminate].
      destruct (setattr self a o) as [self'|] eqn:Hs; [|discriminate].
      repeat split; eauto.
      * apply (setattr_returns_iff self a o). eauto.
      * apply (IH self'). eauto.
    + intros [[Ha [o ->]] Hl]. rewrite (setattr_settable _ _ _ Ha).
      apply IH. exact Hl.
Qed.

Lemma convert_exact : forall v, Exact v.
Proof.
  apply value_ind_nested; unfold Exact; try (simpl; split; eauto; fail).
  - intros l Hl.
    change (convertible (VList l)) with (forallb element_convertible l).
    rewrite <- (elements_returns_iff l Hl). simpl. split.
    + intros [o H]. destruct (elements l) as [os|]; [eauto|discriminate].
    + intros [os ->]. eauto.
  - intros l Hl.
    change (convertible (VTuple l)) with (forallb element_convertible l).
    rewrite <- (elements_returns_iff l Hl). simpl. split.
    + intros [o H]. destruct (elements l) as [os|]; [eauto|discriminate].
    + intros [os ->]. eauto.
  - intros d Hd. change (convert (VDict d)) with (DictObject (VDict d)).
    rewrite DictObject_eq.
    change (convertible (VDict d)) with
      (forallb (fun kv => match kv with
                          | (a, b) => negb (reserved a) && convertible b
                          end) d).
    rewrite <- (init_returns_iff d Hd [("_dict", OVal (VDict d))]). split.
    + intros [o H]. destruct (init d _) as [self|]; [eauto|discriminate].
    + intros [self ->]. eauto.
Qed.

(** X1. [DictObject(d)] returns a view exactly when no key of [d], of a
    mapping among its values or of a mapping among the elements of its
    sequences, recursively, is one of [__class__], [__dict__] and
    [__weakref__]; otherwise [__init__] raises. *)
Theorem DictObject_returns_iff :
  forall d : list (string * value),
    (exists view, DictObject (VDict d) = Return view) <->
    convertible (VDict d) = true.
Proof. intros d. exact (convert_exact (VDict d)). Qed.

(** ** Views that are returned *)

(** C6, as amended. For a mapping with distinct keys that is convertible
    (no key that [__init__] reaches is [__class__], [__dict__] or
    [__weakref__]), [DictObject] returns a view, and the view stands for
    the mapping: every key is a field; the field of a mapping value is the
    view of that mapping, recursively; the field of a list or tuple value
    is a list in which the mapping elements are views and every other
    element is the element itself; the field of any other value is the
    value itself.  So field access along every path of keys gives what
    stands for the value of the mapping at that path. *)
Theorem DictObject_round_trip :
  forall d : list (string * value),
    wf_value (VDict d) = true ->
    convertible (VDict d) = true ->
    exists view,
      DictObject (VDict d) = Return view /\
      Represents view (VDict d) /\
      forall path x,
        source_at (VDict d) path = Some x ->
        exists y, field_at view path = Some y /\ Represents y x.
Proof.
  intros d Hwf Hc.
  destruct (proj2 (convert_exact (VDict d)) Hc) as [view Hview].
  pose proof (convert_sound (VDict d) Hwf view Hview) as Hrep.
  exists view. split; [exact Hview|]. split; [exact Hrep|].
  intros path x Hat. exact (Represents_at_path path view (VDict d) x Hrep Hat).
Qed.

Lemma DictObject_round_trip_witness :
  exists view,
    DictObject (VDict Sample.nested) = Return view /\
    Represents view (VDict Sample.nested) /\
    forall path x,
      source_at (VDict Sample.nested) path = Some x ->
      exists y, field_at view path = Some y /\ Represents y x.
Proof. exact (DictObject_round_trip Sample.nested eq_refl eq_refl). Defined.

(** C6, as stated, fails on the well-formed mapping [{"__class__":
    "Camera"}]: [setattr] refuses the key, [__init__] raises [TypeError]
    and no view is built.  And a tuple value is not passed through: the
    field of [size] in the view of [{"size": (640, 480)}] is a list. *)
Lemma DictObject_refuses_class_key :
  wf_value (VDict [("__class__", VStr "Camera")]) = true /\
  DictObject (VDict [("__class__", VStr "Camera")]) =
  Raise TypeError [str_ "__class__ must be set to a class"] /\
  DictObject (VDict [("size", VTuple [VInt 640; VInt 480])]) =
  Return (OView [("_dict", OVal (VDict [("size", VTuple [VInt 640; VInt 480])]));
                 ("size", OList [OVal (VInt 640); OVal (VInt 480)])]).
Proof. repeat split. Qed.




(** ** DictObject: the fields of a view *)

Lemma mem_app k l1 l2 : Str.mem k (l1 ++ l2) = Str.mem k l1 || Str.mem k l2.
Proof. unfold Str.mem. apply existsb_app. Qed.

Lemma keys_set {V} (a : string) (o : V) (self : list (string * V)) :
  map fst (Dict.set a o self) =
  if Str.mem a (map fst self) then map fst self else map fst self ++ [a].
Proof.
  induction self as [|[k v] self IH]; simpl; [reflexivity|].
  destruct (String.eqb a k) eqn:E; simpl; [reflexivity|].
  rewrite IH. now destruct (Str.mem a (map fst self)).
Qed.

(** The loop of [__init__] keeps the attributes in place and appends the
    new keys in the order of the items. *)
Lemma init_keys l : forall self final,
  Dict.distinct (map fst l) = true ->
  init l self = Return final ->
  map fst final =
  map fst self ++ filter (fun k => negb (Str.mem k (map fst self))) (map fst l).
Proof.
  induction l as [|[a b] l IH]; simpl; intros self final Hd Hinit.
  - injection Hinit as <-. now rewrite app_nil_r.
  - apply andb_true_iff in Hd as [Ha Hd].
    apply negb_true_iff, mem_false_iff in Ha.
    destruct (convert b) as [o|]; [|discriminate].
    destruct (setattr self a o) as [self'|] eqn:Hs; [|discriminate].
    apply setattr_Return in Hs. subst self'.
    rewrite (IH _ _ Hd Hinit), keys_set.
    destruct (Str.mem a (map fst self)) eqn:Hm; simpl.
    + reflexivity.
    + rewrite <- app_assoc. simpl. do 2 f_equal.
      apply filter_ext_in. intros k Hk.
      rewrite mem_app. simpl. unfold Str.mem at 2. simpl.
      destruct (String.eqb_spec k a) as [->|Hne]; [contradiction|].
      now rewrite !orb_false_r.
Qed.

(** Every attribute that the loop sets is the conversion of the item's
    value. *)
Lemma init_get l :
  Dict.distinct (map fst l) = true ->
  forall self final, init l self = Return final ->
  forall k v, Dict.get k l = Some v ->
  exists o, convert v = Return o /\ Dict.get k final = Some o.
Proof.
  induction l as [|[a b] l IH]; simpl; intros Hd self final Hinit k v Hget.
  - discriminate.
  - apply andb_true_iff in Hd as [Ha Hd].
    apply negb_true_iff, mem_false_iff in Ha.
    destruct (convert b) as [x|] eqn:Hx; [|discriminate].
    destruct (setattr self a x) as [self'|] eqn:Hset; [|discriminate].
    apply setattr_Return in Hset. subst self'.
    destruct (String.eqb_spec k a) as [->|Hne].
    + injection Hget as <-. exists x. split; [exact Hx|].
      apply (init_keeps _ _ _ _ _ Hinit Ha). apply get_set_same.
    + now apply (IH Hd _ _ Hinit).
Qed.

Lemma get_None_not_In {V} (k : string) (d : list (string * V)) :
  Dict.get k d = None -> ~ In k (map fst d).
Proof.
  induction d as [|[k' v'] d IH]; simpl; [tauto|].
  destruct (String.eqb_spec k k') as [->|Hne]; [discriminate|].
  intros H [E|Hin]; [now symmetry in E | now apply IH].
Qed.

(** X2. The attributes of the view that [DictObject(d)] builds are [_dict]
    followed by the keys of [d] other than [_dict], in the order of [d]:
    the view has one field per key and no other. *)
Theorem DictObject_field_names :
  forall (d : list (string * value)) (attrs : list (string * obj)),
    Dict.distinct (map fst d) = true ->
    DictObject (VDict d) = Return (OView attrs) ->
    map fst attrs =
    "_dict" :: filter (fun k => negb (String.eqb k "_dict")) (map fst d).
Proof.
  intros d attrs Hd H. rewrite DictObject_eq in H.
  destruct (init d _) as [self|] eqn:Hinit; [|discriminate].
  injection H as <-. rewrite (init_keys _ _ _ Hd Hinit). simpl. f_equal.
  apply filter_ext. intros k. unfold Str.mem. simpl. now rewrite orb_false_r.
Qed.

Lemma DictObject_field_names_witness :
  Dict.distinct (map fst Sample.nested) = true /\
  map fst [("_dict", OVal (VDict Sample.nested));
           ("name", OVal (VStr "sky"));
           ("camera",
            OView [("_dict", OVal (VInt 7)); ("gain", OVal (VFloat (3 # 2)))]);
           ("stars",
            OList [OVal (VInt 1);
                   OView [("_dict", OVal (VDict [("mag", VNone)]));
                          ("mag", OVal VNone)];
                   OVal (VList [VDict []])]);
           ("size", OList [OVal (VInt 640); OVal (VInt 480)])] =
  ["_dict"; "name"; "camera"; "stars"; "size"].
Proof.
  split; [reflexivity|].
  exact (DictObject_field_names Sample.nested _ eq_refl eq_refl).
Defined.

(** X3. The view keeps the mapping it was built from as its attribute
    [_dict], which [__str__] prints, unless the mapping has a key [_dict]:
    then the attribute is the conversion of that key's value, and the
    mapping itself is no longer reachable from the view. *)
Theorem DictObject_dict_attribute :
  forall (d : list (string * value)) (view : obj),
    Dict.distinct (map fst d) = true ->
    DictObject (VDict d) = Return view ->
    match Dict.get "_dict" d with
    | None => getattr view "_dict" = Some (OVal (VDict d))
    | Some v => exists o, convert v = Return o /\ getattr view "_dict" = Some o
    end.
Proof.
  intros d view Hd H. rewrite DictObject_eq in H.
  destruct (init d _) as [self|] eqn:Hinit; [|discriminate].
  injection H as <-. simpl.
  destruct (Dict.get "_dict" d) as [v|] eqn:Hget.
  - exact (init_get d Hd _ _ Hinit "_dict" v Hget).
  - apply (init_keeps _ _ _ _ _ Hinit (get_None_not_In _ _ Hget)). reflexivity.
Qed.

Lemma DictObject_dict_attribute_witness :
  getattr Sample.nested_view "_dict" = Some (OVal (VDict Sample.nested)) /\
  exists o, convert (VInt 7) = Return o /\
            getattr (OView [("_dict", OVal (VInt 7));
                            ("gain", OVal (VFloat (3 # 2)))]) "_dict" = Some o.
Proof.
  split.
  - exact (DictObject_dict_attribute Sample.nested Sample.nested_view eq_refl eq_refl).
  - exact (DictObject_dict_attribute
             [("gain", VFloat (3 # 2)); ("_dict", VInt 7)] _ eq_refl eq_refl).
Defined.

(** ** invoke: replies without failures, and replies without an error *)

Lemma comprehension_Return {A B} (f : A -> Result B) l ys :
  map f l = map Return ys -> comprehension f l = Return ys.
Proof.
  revert ys. induction l as [|x l IH]; intros [|y ys] H; try discriminate.
  - reflexivity.
  - simpl in *. injection H as Hx H. now rewrite Hx, (IH _ H).
Qed.

Lemma invoke_loop_no_failure {World} (eval : Evaluator World) rets :
  Forall (fun r => did_fail (status r) = false) rets ->
  forall errors h w,
    invoke_loop eval rets errors h w =
    (Return (errors ++ map (fun _ => None_) rets, flag_after h rets), w).
Proof.
  induction 1 as [|r rets Hr _ IH]; simpl; intros errors h w.
  - now rewrite app_nil_r.
  - rewrite Hr, IH, <- app_assoc. reflexivity.
Qed.

Lemma flag_after_no_failure rets h :
  rets <> [] ->
  Forall (fun r => did_fail (status r) = false) rets ->
  flag_after h rets = Some false.
Proof.
  intros Hne Hall. destruct (exists_last Hne) as (rets' & r & ->).
  rewrite flag_after_last. apply Forall_app in Hall as [_ Hr].
  inversion Hr as [|? ? Hf _]. now rewrite Hf.
Qed.

(** X4. A fan-out in which every call resolves and no command failed: with
    [raw], [invoke] returns the last reply bodies, one per call, in the
    order of the calls; without [raw], it returns the views built from
    them, in the same order.  Nothing is decoded, so the interpreter's
    world is left as it was. *)
Theorem invoke_fanout_all_succeeded :
  forall (World : Type) (eval : Evaluator World)
         (argv : list (Awaitable Command)) (rets : list Command)
         (bodies : list (list (string * value))) (w : World),
    (1 < length argv)%nat ->
    map outcome argv = map Return rets ->
    Forall (fun r => did_fail (status r) = false) rets ->
    map last_body rets = map Return bodies ->
    invoke eval argv true w =
    (Return (OList (map (fun b => OVal (VDict b)) bodies)), w)
    /\
    forall views,
      map (fun b => DictObject (VDict b)) bodies = map Return views ->
      invoke eval argv false w = (Return (OList views), w).
Proof.
  intros World eval argv rets bodies w Hlen Hout Hok Hbodies.
  assert (rets <> []) as Hne.
  { intros ->. destruct argv as [|? [|? ?]]; simpl in *; try lia; discriminate. }
  assert (forall raw, invoke eval argv raw w =
                      (fanout_end rets raw (map (fun _ => None_) rets, Some false), w))
    as Hinv.
  { intros raw. rewrite (invoke_fanout_eq _ _ _ _ _ _ Hlen Hout).
    rewrite (invoke_loop_no_failure eval rets Hok).
    now rewrite (flag_after_no_failure _ _ Hne Hok). }
  split.
  - rewrite Hinv. unfold fanout_end. simpl.
    rewrite (comprehension_Return _ rets (map (fun b => OVal (VDict b)) bodies));
      [reflexivity|].
    rewrite map_map. rewrite <- (map_map last_body (rmap (fun b => OVal (VDict b)))).
    rewrite Hbodies, map_map. reflexivity.
  - intros views Hviews. rewrite Hinv. unfold fanout_end. simpl.
    rewrite (comprehension_Return _ rets views); [reflexivity|].
    rewrite <- Hviews.
    rewrite <- (map_map last_body (fun r => rbind r (fun b => DictObject (VDict b)))).
    rewrite Hbodies, map_map. reflexivity.
Qed.

Lemma invoke_fanout_all_succeeded_witness :
  invoke Fragment.eval_only
    [Sample.pending 2 Sample.position; Sample.pending 1 Sample.position] true
    "log" =
  (Return (OList [OVal (VDict [("x", VInt 1); ("y", VInt 2)]);
                  OVal (VDict [("x", VInt 1); ("y", VInt 2)])]),
   "log").
Proof.
  refine (proj1 (invoke_fanout_all_succeeded _ Fragment.eval_only
                   [Sample.pending 2 Sample.position; Sample.pending 1 Sample.position]
                   [Sample.position; Sample.position]
                   [[("x", VInt 1); ("y", VInt 2)]; [("x", VInt 1); ("y", VInt 2)]]
                   "log" _ _ _ eq_refl)).
  - simpl. lia.
  - reflexivity.
  - repeat constructor.
Defined.

(** X5. In a fan-out whose calls all resolve, the last reply alone decides
    between raising and returning: when the last command failed, [invoke]
    raises, whatever the others did; when it did not fail, nothing that
    [invoke] raises is the aggregate failure, even if commands before it
    failed. *)
Theorem invoke_fanout_decided_by_last :
  forall (World : Type) (eval : Evaluator World)
         (argv : list (Awaitable Command)) (rets : list Command) (r : Command)
         (raw : bool) (w : World),
    (1 < length argv)%nat ->
    map outcome argv = map Return (rets ++ [r]) ->
    if did_fail (status r) then
      exists c e w', invoke eval argv raw w = (Raise c e, w')
    else
      forall c e w', invoke eval argv raw w = (Raise c e, w') ->
                     c <> ProxyException.
Proof.
  intros World eval argv rets r raw w Hlen Hout.
  destruct (did_fail (status r)) eqn:Hr.
  - rewrite (invoke_fanout_eq _ _ _ _ _ _ Hlen Hout).
    destruct (invoke_loop eval (rets ++ [r]) [] None w) as [[st|c e] w1] eqn:Hloop.
    + apply invoke_loop_spec in Hloop as (new & _ & _ & Hflag).
      rewrite flag_after_last, Hr in Hflag.
      unfold fanout_end. rewrite Hflag. simpl. eauto.
    + eauto.
  - intros c e w' H.
    exact (invoke_fanout_last_decides World eval argv rets r raw w w' c e
             Hlen Hout Hr H).
Qed.

Lemma invoke_fanout_decided_by_last_witness :
  (exists c e w',
      invoke Fragment.eval_only
        [Sample.pending 1 Sample.position; Sample.pending 2 Sample.exposure_failed]
        true "" = (Raise c e, w'))
  /\
  forall c e w',
    invoke Fragment.eval_only
      [Sample.pending 1 (Sample.finished true [[("text", VStr "busy")]]);
       Sample.pending 2 Sample.position]
      true "" = (Raise c e, w') ->
    c <> ProxyException.
Proof.
  split.
  - exact (invoke_fanout_decided_by_last _ Fragment.eval_only
             [Sample.pending 1 Sample.position;
              Sample.pending 2 Sample.exposure_failed]
             [Sample.position] Sample.exposure_failed true ""
             (Nat.lt_succ_diag_r 1) eq_refl).
  - exact (invoke_fanout_decided_by_last _ Fragment.eval_only
             [Sample.pending 1 (Sample.finished true [[("text", VStr "busy")]]);
              Sample.pending 2 Sample.position]
             [Sample.finished true [[("text", VStr "busy")]]] Sample.position
             true "" (Nat.lt_succ_diag_r 1) eq_refl).
Defined.

Lemma mbind_Raise {World A B} (m : M World A) (k : A -> M World B) w c e w' :
  m w = (Raise c e, w') -> mbind m k w = (Raise c e, w').
Proof. intros H. unfold mbind. now rewrite H. Qed.

Lemma decoded_error_last_body_Raise {World} (eval : Evaluator World) r c e w :
  last_body r = Raise c e -> decoded_error eval r w = (Raise c e, w).
Proof. intros H. unfold decoded_error. now rewrite mbind_lift, H. Qed.

Lemma decoded_error_no_error {World} (eval : Evaluator World) r b w :
  last_body r = Return b ->
  Dict.get "error" b = None ->
  decoded_error eval r w = (Raise KeyError [str_ "error"], w).
Proof.
  intros Hb Hget. unfold decoded_error. rewrite mbind_lift, Hb, mbind_lift.
  unfold getitem. now rewrite Hget.
Qed.

(** X6. A single call that resolves to a command without replies makes
    [invoke] raise [IndexError], failed or not; one that resolves to a
    failed command whose last reply body has no [error] field makes it
    raise [KeyError('error')] instead of a decoded failure.  In both cases
    nothing is evaluated. *)
Theorem invoke_single_without_error :
  forall (World : Type) (eval : Evaluator World)
         (cmd : Awaitable Command) (ret : Command) (raw : bool) (w : World),
    outcome cmd = Return ret ->
    (replies ret = [] ->
     invoke eval [cmd] raw w =
     (Raise IndexError [str_ "list index out of range"], w))
    /\
    (forall b,
        did_fail (status ret) = true ->
        last_body ret = Return b ->
        Dict.get "error" b = None ->
        invoke eval [cmd] raw w = (Raise KeyError [str_ "error"], w)).
Proof.
  intros World eval cmd ret raw w Hcmd.
  unfold invoke. change (1 <? length [cmd])%nat with false. cbv iota.
  rewrite mbind_lift, Hcmd. split.
  - intros Hnone.
    assert (last_body ret = Raise IndexError [str_ "list index out of range"]) as Hb.
    { unfold last_body. now rewrite Hnone. }
    destruct (did_fail (status ret)).
    + apply mbind_Raise. now apply decoded_error_last_body_Raise.
    + unfold lift. rewrite Hb. now destruct raw.
  - intros b Hf Hb Hget. rewrite Hf.
    apply mbind_Raise. exact (decoded_error_no_error eval ret b w Hb Hget).
Qed.

Lemma invoke_single_without_error_witness :
  invoke Fragment.eval_only [Sample.pending 1 (Sample.finished false [])] false "" =
  (Raise IndexError [str_ "list index out of range"], "")
  /\
  invoke Fragment.eval_only
    [Sample.pending 1 (Sample.finished true [[("text", VStr "busy")]])] true "" =
  (Raise KeyError [str_ "error"], "").
Proof.
  split.
  - exact (proj1 (invoke_single_without_error _ Fragment.eval_only
                    (Sample.pending 1 (Sample.finished false []))
                    (Sample.finished false []) false "" eq_refl) eq_refl).
  - exact (proj2 (invoke_single_without_error _ Fragment.eval_only
                    (Sample.pending 1 (Sample.finished true [[("text", VStr "busy")]]))
                    (Sample.finished true [[("text", VStr "busy")]]) true "" eq_refl)
             [("text", VStr "busy")] eq_refl eq_refl eq_refl).
Defined.

(** ** invoke: pending calls that raise *)

Lemma first_raised_None {A} (tasks : list (Awaitable A)) :
  first_raised tasks = None -> forall t, In t tasks -> ~ raises t.
Proof.
  induction tasks as [|t0 tasks IH]; simpl; intros H t Hin; [contradiction|].
  destruct (outcome t0) as [a|c0 e0] eqn:Ht0.
  - destruct Hin as [<-|Hin]; [|now apply IH].
    intros (c & e & Hr). congruence.
  - destruct (first_raised tasks) as [[at_ x]|]; [|discriminate].
    destruct (Qle_bool (completes_at t0) at_); discriminate.
Qed.

Lemma first_raised_Some {A} (tasks : list (Awaitable A)) at_ c e :
  first_raised tasks = Some (at_, (c, e)) ->
  exists t,
    In t tasks /\ outcome t = Raise c e /\ completes_at t = at_ /\
    forall t', In t' tasks -> raises t' -> (at_ <= completes_at t')%Q.
Proof.
  revert at_ c e. induction tasks as [|t0 tasks IH]; simpl; intros at_ c e H;
    [discriminate|].
  destruct (outcome t0) as [a|c0 e0] eqn:Ht0.
  - destruct (IH _ _ _ H) as (t & Hin & Hout & Hat & Hmin).
    exists t. repeat split; auto.
    intros t' [<-|Hin'] Hr; [|now apply Hmin].
    destruct Hr as (c' & e' & Hr). congruence.
  - destruct (first_raised tasks) as [[at1 [c1 e1]]|] eqn:Hrest.
    + destruct (IH _ _ _ eq_refl) as (t & Hin & Hout & Hat & Hmin).
      destruct (Qle_bool (completes_at t0) at1) eqn:Hle.
      * injection H as <- <- <-. apply Qle_bool_iff in Hle.
        exists t0. repeat split; auto.
        intros t' [<-|Hin'] Hr; [apply Qle_refl|].
        eapply Qle_trans; [exact Hle | now apply Hmin].
      * injection H as <- <- <-.
        exists t. repeat split; auto.
        intros t' [<-|Hin'] Hr; [|now apply Hmin].
        apply Qlt_le_weak, Qnot_le_lt. intros Hc.
        apply Qle_bool_iff in Hc. congruence.
    + injection H as <- <- <-.
      exists t0. repeat split; auto.
      intros t' [<-|Hin'] Hr; [apply Qle_refl|].
      exfalso. exact (first_raised_None _ Hrest t' Hin' Hr).
Qed.

Lemma first_raised_exists {A} (tasks : list (Awaitable A)) t :
  In t tasks -> raises t -> exists r, first_raised tasks = Some r.
Proof.
  intros Hin Hr. destruct (first_raised tasks) as [r|] eqn:H; [eauto|].
  exfalso. exact (first_raised_None _ H t Hin Hr).
Qed.

(** X7. When a pending call raises instead of resolving, [invoke] raises
    what a pending call raised, unchanged, and evaluates nothing: for a
    single call that call's exception, and in a fan-out that of a call
    which no other raising call completed before. *)
Theorem invoke_propagates_await_failure :
  forall (World : Type) (eval : Evaluator World)
         (argv : list (Awaitable Command)) (raw : bool) (w : World)
         (t0 : Awaitable Command),
    In t0 argv ->
    raises t0 ->
    exists t c e,
      In t argv /\ outcome t = Raise c e /\
      invoke eval argv raw w = (Raise c e, w) /\
      forall t', In t' argv -> raises t' ->
                 (completes_at t <= completes_at t')%Q.
Proof.
  intros World eval argv raw w t0 Hin Hr.
  destruct (Nat.ltb_spec 1 (length argv)) as [Hlen|Hlen].
  - destruct (first_raised_exists argv t0 Hin Hr) as [[at_ [c e]] Hfirst].
    destruct (first_raised_Some argv at_ c e Hfirst) as (t & Ht & Hout & Hat & Hmin).
    exists t, c, e. repeat split; auto.
    + unfold invoke. apply Nat.ltb_lt in Hlen. rewrite Hlen.
      rewrite mbind_lift. unfold gather. rewrite Hfirst. reflexivity.
    + intros t' Hin' Hr'. rewrite Hat. now apply Hmin.
  - destruct argv as [|cmd [|? ?]]; simpl in Hlen; try contradiction; try lia.
    destruct Hin as [<-|[]]. destruct Hr as (c & e & Hout).
    exists cmd, c, e. repeat split; auto.
    + now left.
    + unfold invoke. change (1 <? length [cmd])%nat with false. cbv iota.
      rewrite mbind_lift, Hout. reflexivity.
    + intros t' [<-|[]] _. apply Qle_refl.
Qed.

Lemma invoke_propagates_await_failure_witness :
  exists t c e,
    In t [Sample.pending 1 Sample.exposure_failed;
          {| completes_at := 3; outcome := Raise TimeoutError [] |};
          {| completes_at := 2; outcome := Raise (OtherException "AMQPError") [] |}]
    /\ outcome t = Raise c e
    /\ invoke Fragment.eval_only
         [Sample.pending 1 Sample.exposure_failed;
          {| completes_at := 3; outcome := Raise TimeoutError [] |};
          {| completes_at := 2; outcome := Raise (OtherException "AMQPError") [] |}]
         false "" = (Raise c e, "")
    /\ forall t',
         In t' [Sample.pending 1 Sample.exposure_failed;
                {| completes_at := 3; outcome := Raise TimeoutError [] |};
                {| completes_at := 2; outcome := Raise (OtherException "AMQPError") [] |}] ->
         raises t' -> (completes_at t <= completes_at t')%Q.
Proof.
  apply (invoke_propagates_await_failure _ Fragment.eval_only _ false ""
           {| completes_at := 3; outcome := Raise TimeoutError [] |}).
  - right. left. reflexivity.
  - exists TimeoutError, []. reflexivity.
Defined.

(** ** unpack on the reply of a command *)

Lemma mbind_Return {World A B} (m : M World A) (k : A -> M World B) w a w' :
  m w = (Return a, w') -> mbind m k w = k a w'.
Proof. intros H. unfold mbind. now rewrite H. Qed.

Lemma invoke_raw_body {World} (eval : Evaluator World) cmd r body w :
  outcome cmd = Return r ->
  did_fail (status r) = false ->
  last_body r = Return body ->
  invoke eval [cmd] true w = (Return (OVal (VDict body)), w).
Proof.
  intros Hcmd Hf Hb. unfold invoke.
  change (1 <? length [cmd])%nat with false. cbv iota.
  rewrite mbind_lift, Hcmd, Hf. unfold lift. now rewrite Hb.
Qed.

Lemma unpack_of_body {World} (eval : Evaluator World) cmd r body argv w :
  outcome cmd = Return r ->
  did_fail (status r) = false ->
  last_body r = Return body ->
  unpack eval cmd argv w = (unpack_body body argv, w).
Proof.
  intros Hcmd Hf Hb. unfold unpack.
  now rewrite (mbind_Return _ _ _ _ _ (invoke_raw_body eval cmd r body w Hcmd Hf Hb)).
Qed.

Lemma comprehension_first_missing ret pre k post :
  Forall (fun n => Dict.get n ret <> None) pre ->
  Dict.get k ret = None ->
  comprehension (getitem ret) (pre ++ k :: post) = Raise KeyError [str_ k].
Proof.
  intros Hpre Hk. induction Hpre as [|n pre Hn _ IH]; simpl.
  - unfold getitem. now rewrite Hk.
  - unfold getitem at 1. destruct (Dict.get n ret); [|contradiction].
    now rewrite IH.
Qed.

(** X8. [unpack] on a command that succeeded with a body of two or more
    fields, asked for two or more names that are all fields of the body,
    returns the values of those names in the order asked, whatever the
    order of the body. *)
Theorem unpack_requested_names :
  forall (World : Type) (eval : Evaluator World) (cmd : Awaitable Command)
         (r : Command) (body : list (string * value)) (argv : list string)
         (vs : list value) (w : World),
    outcome cmd = Return r ->
    did_fail (status r) = false ->
    last_body r = Return body ->
    (2 <= length body)%nat ->
    (2 <= length argv)%nat ->
    map (fun k => Dict.get k body) argv = map Some vs ->
    unpack eval cmd argv w = (Return (OVal (VList vs)), w).
Proof.
  intros World eval cmd r body argv vs w Hcmd Hf Hb Hbody Hargv Hvs.
  rewrite (unpack_of_body eval cmd r body argv w Hcmd Hf Hb).
  now rewrite (unpack_body_requested body argv vs Hbody Hargv Hvs).
Qed.

Lemma unpack_requested_names_witness :
  unpack Fragment.eval_only (Sample.pending 1 Sample.position) ["y"; "x"; "y"] "" =
  (Return (OVal (VList [VInt 2; VInt 1; VInt 2])), "").
Proof.
  apply (unpack_requested_names _ Fragment.eval_only
           (Sample.pending 1 Sample.position) Sample.position
           [("x", VInt 1); ("y", VInt 2)]); try reflexivity; simpl; lia.
Defined.

(** X9. [unpack] on a command that succeeded with a body of two or more
    fields, asked for two or more names of which one is no field of the
    body, raises [KeyError] for the first such name. *)
Theorem unpack_missing_name :
  forall (World : Type) (eval : Evaluator World) (cmd : Awaitable Command)
         (r : Command) (body : list (string * value))
         (pre : list string) (k : string) (post : list string) (w : World),
    outcome cmd = Return r ->
    did_fail (status r) = false ->
    last_body r = Return body ->
    (2 <= length body)%nat ->
    (2 <= length (pre ++ k :: post))%nat ->
    Forall (fun n => Dict.get n body <> None) pre ->
    Dict.get k body = None ->
    unpack eval cmd (pre ++ k :: post) w = (Raise KeyError [str_ k], w).
Proof.
  intros World eval cmd r body pre k post w Hcmd Hf Hb Hbody Hargv Hpre Hk.
  rewrite (unpack_of_body eval cmd r body _ w Hcmd Hf Hb).
  unfold unpack_body.
  destruct (Nat.eqb_spec (length body) 0); [lia|].
  destruct (Nat.eqb_spec (length body) 1); [lia|].
  destruct (Nat.ltb_spec 1 (length (pre ++ k :: post))); [|lia].
  now rewrite (comprehension_first_missing body pre k post Hpre Hk).
Qed.

Lemma unpack_missing_name_witness :
  unpack Fragment.eval_only (Sample.pending 1 Sample.position) ["x"; "z"; "t"] "" =
  (Raise KeyError [str_ "z"], "").
Proof.
  apply (unpack_missing_name _ Fragment.eval_only
           (Sample.pending 1 Sample.position) Sample.position
           [("x", VInt 1); ("y", VInt 2)] ["x"] "z" ["t"]);
    try reflexivity; try (simpl; lia).
  constructor; [discriminate | constructor].
Defined.

(** X10. [unpack] on a command that succeeded with an empty body returns
    [None], and with a body of one field returns the value of that field,
    whatever names were asked for: the names are not looked up, so a name
    that is no field of the body raises nothing. *)
Theorem unpack_small_body :
  forall (World : Type) (eval : Evaluator World) (cmd : Awaitable Command)
         (r : Command) (body : list (string * value)) (argv : list string)
         (w : World),
    outcome cmd = Return r ->
    did_fail (status r) = false ->
    last_body r = Return body ->
    (length body <= 1)%nat ->
    unpack eval cmd argv w =
    (Return (match body with
             | [] => None_
             | (_, v) :: _ => OVal v
             end), w).
Proof.
  intros World eval cmd r body argv w Hcmd Hf Hb Hlen.
  rewrite (unpack_of_body eval cmd r body argv w Hcmd Hf Hb).
  destruct body as [|[k v] [|? ?]]; simpl in Hlen; try lia; reflexivity.
Qed.

Lemma unpack_small_body_witness :
  unpack Fragment.eval_only
    (Sample.pending 1 (Sample.finished false [[("gain", VInt 4)]]))
    ["offset"; "bias"] "" =
  (Return (OVal (VInt 4)), "").
Proof.
  apply (unpack_small_body _ Fragment.eval_only
           (Sample.pending 1 (Sample.finished false [[("gain", VInt 4)]]))
           (Sample.finished false [[("gain", VInt 4)]])
           [("gain", VInt 4)] ["offset"; "bias"] "");
    try reflexivity; simpl; lia.
Defined.

(** X11. [unpack] on a command that succeeded with a body of two or more
    fields, asked for fewer than two names, returns all the values of the
    body in the order of the body: a single name asked for is not looked
    up. *)
Theorem unpack_all_values :
  forall (World : Type) (eval : Evaluator World) (cmd : Awaitable Command)
         (r : Command) (body : list (string * value)) (argv : list string)
         (w : World),
    outcome cmd = Return r ->
    did_fail (status r) = false ->
    last_body r = Return body ->
    (2 <= length body)%nat ->
    (length argv <= 1)%nat ->
    unpack eval cmd argv w = (Return (OVal (VList (map snd body))), w).
Proof.
  intros World eval cmd r body argv w Hcmd Hf Hb Hbody Hargv.
  rewrite (unpack_of_body eval cmd r body argv w Hcmd Hf Hb).
  now rewrite (unpack_body_all body argv Hbody Hargv).
Qed.

Lemma unpack_all_values_witness :
  unpack Fragment.eval_only (Sample.pending 1 Sample.position) [] "" =
  (Return (OVal (VList [VInt 1; VInt 2])), "").
Proof.
  apply (unpack_all_values _ Fragment.eval_only
           (Sample.pending 1 Sample.position) Sample.position
           [("x", VInt 1); ("y", VInt 2)] [] ""); try reflexivity; simpl; lia.
Defined.

(** X12. [unpack] on a command that failed raises the exception that the
    decoder gives for the [error] field of its last reply body, whatever
    names were asked for. *)
Theorem unpack_failed_command :
  forall (World : Type) (eval : Evaluator World) (cmd : Awaitable Command)
         (r : Command) (body : list (string * value)) (argv : list string)
         (errstr : value) (c : ExcClass) (args : list obj) (w w' : World),
    outcome cmd = Return r ->
    did_fail (status r) = true ->
    last_body r = Return body ->
    getitem body "error" = Return errstr ->
    _stringToException eval errstr w = (Return (OExc c args), w') ->
    unpack eval cmd argv w = (Raise c args, w').
Proof.
  intros World eval cmd r body argv errstr c args w w' Hcmd Hf Hb He Hd.
  unfold unpack. apply mbind_Raise. unfold invoke.
  change (1 <? length [cmd])%nat with false. cbv iota.
  rewrite mbind_lift, Hcmd, Hf.
  rewrite (mbind_Return _ _ w (OExc c args) w'); [reflexivity|].
  now rewrite (decoded_error_eq _ eval r body errstr w Hb He).
Qed.

Lemma unpack_failed_command_witness :
  unpack Fragment.eval_only (Sample.pending 1 Sample.exposure_failed) ["x"] "" =
  (Raise ProxyPlainMessagException [OVal (VTuple [VStr "exposure failed"])], "").
Proof.
  apply (unpack_failed_command _ Fragment.eval_only
           (Sample.pending 1 Sample.exposure_failed) Sample.exposure_failed
           [("error", VStr "exposure failed")] ["x"] (VStr "exposure failed"));
    reflexivity.
Defined.

(** ** _stringToException: what gets through *)

(** X13. The decoder raises only when the error field is a string whose
    evaluation raises an exception that does not derive from [Exception]
    (such as [SystemExit]), and then it raises that very exception; every
    exception deriving from [Exception] is turned into a returned value. *)
Theorem stringToException_passes_only_base :
  forall (World : Type) (eval : Evaluator World) (errstr : value)
         (w w' : World) (c : ExcClass) (e : list obj),
    _stringToException eval errstr w = (Raise c e, w') ->
    is_Exception c = false /\
    exists s, errstr = VStr s /\ eval s w = (Raise c e, w').
Proof.
  intros World eval errstr w w' c e H. unfold _stringToException in H.
  destruct errstr; try discriminate.
  destruct (eval s w) as [[o|c0 e0] w0] eqn:Hev; [discriminate|].
  destruct (is_SyntaxError c0); [discriminate|].
  destruct (is_Exception c0) eqn:Hc; [discriminate|].
  injection H as <- <- <-. split; [exact Hc|]. now exists s.
Qed.

Lemma stringToException_passes_only_base_witness :
  _stringToException
    (Fragment.eval (fun _ out => (Raise SystemExit [None_], out)))
    (VStr "exit()") "" = (Raise SystemExit [None_], "")
  /\
  is_Exception SystemExit = false /\
  exists s, VStr "exit()" = VStr s /\
            Fragment.eval (fun _ out => (Raise SystemExit [None_], out)) s "" =
            (Raise SystemExit [None_], "").
Proof.
  split; [reflexivity|].
  exact (stringToException_passes_only_base _
           (Fragment.eval (fun _ out => (Raise SystemExit [None_], out)))
           (VStr "exit()") "" "" SystemExit [None_] eq_refl).
Defined.

(** ** Proxy and _ProxyMethod.__call__ *)

Lemma lower_ascii_idempotent (c : ascii) :
  Str.lower_ascii (Str.lower_ascii c) = Str.lower_ascii c.
Proof. destruct c as [[] [] [] [] [] [] [] []]; reflexivity. Qed.

Lemma lower_ascii_not_upper (c : ascii) : is_upper (Str.lower_ascii c) = false.
Proof. destruct c as [[] [] [] [] [] [] [] []]; reflexivity. Qed.

Lemma lower_idempotent (s : string) : Str.lower (Str.lower s) = Str.lower s.
Proof.
  induction s as [|c s IH]; simpl; [reflexivity|].
  now rewrite lower_ascii_idempotent, IH.
Qed.

Lemma lower_no_upper (s : string) :
  Str.all_chars (fun c => negb (is_upper c)) (Str.lower s) = true.
Proof.
  induction s as [|c s IH]; simpl; [reflexivity|].
  now rewrite lower_ascii_not_upper, IH.
Qed.

(** X14. A call through [Proxy] does not depend on the case of the ASCII
    letters of the attribute name: the handle for a name and the handle for
    its lower-cased form make the same request and give the same result.
    The request goes to the proxy's consumer, whose name is passed as it
    is, and its command string has no upper-case ASCII letter. *)
Theorem Proxy_call_ignores_case :
  forall (Callback : Type) (p : Proxy Callback) (name : string)
         (args : list value) (opt : CallOptions Callback)
         (kwargs : list (string * value)),
    _ProxyMethod_call (Proxy_getattr p (Str.lower name)) args opt kwargs =
    _ProxyMethod_call (Proxy_getattr p name) args opt kwargs
    /\
    Forall (fun r =>
              req_consumer r = Proxy_consumer p /\
              Str.all_chars (fun c => negb (is_upper c)) (req_command r) = true)
           (fst (_ProxyMethod_call (Proxy_getattr p name) args opt kwargs)).
Proof.
  intros Callback p name args opt kwargs. split.
  - unfold _ProxyMethod_call, request, Proxy_getattr. simpl.
    now rewrite lower_idempotent.
  - unfold _ProxyMethod_call, request, Proxy_getattr. simpl.
    constructor; [|constructor]. simpl. split; [reflexivity|].
    apply lower_no_upper.
Qed.

(** X15. The options built from the named arguments lose nothing: two
    sequences of named arguments that give the same options are the same
    sequence, names, values and order. *)
Theorem options_injective :
  forall kwargs1 kwargs2 : list (string * value),
    options kwargs1 = options kwargs2 -> kwargs1 = kwargs2.
Proof.
  induction kwargs1 as [|[k1 v1] kwargs1 IH]; intros [|[k2 v2] kwargs2] H;
    simpl in H; try discriminate; [reflexivity|].
  injection H as Hk Hv H. subst.
  now rewrite (IH _ H).
Qed.

Lemma options_injective_witness :
  options [("gain", VInt 2); ("mode", VStr "fast")] =
  [VStr "--gain"; VInt 2; VStr "--mode"; VStr "fast"]
  /\ [("gain", VInt 2); ("mode", VStr "fast")] =
     [("gain", VInt 2); ("mode", VStr "fast")].
Proof.
  split; [reflexivity|].
  exact (options_injective _ _ eq_refl).
Defined.
